(** * Storey loss functions: the loader and the interpolation-table builder

    A shallow embedding of [src/tools/slf.py] (class [SLF]).

    Numbers.  The Python code computes on floats (numpy arrays of
    float64).  They are modelled here by the rationals [Q]: rounding is
    not modelled, every arithmetic statement below is a statement of exact
    arithmetic and is written with [==] (equality of rationals).

    Failures.  Everything the Python code can raise on the way is kept:
    a missing key, [max] of an empty sequence, [int] of a character that is
    no digit, a division by zero.  They are the constructors of [exn], and
    fallible code lives in the error monad [result].

    Dictionaries.  A Python dict read by the code is an insertion-ordered
    list of items with pairwise distinct keys ([dict]); the dict the
    builder fills in is a finite map ([gmap]). *)

From Stdlib Require Import Ascii QArith Qfield Lqa.
From stdpp Require Import gmap strings list fin_maps.

Local Open Scope Q_scope.
Local Open Scope string_scope.

(** ** Exceptions and the error monad *)

Inductive exn : Set :=
| KeyError            (* subscript with a key the dict does not have *)
| ValueError          (* max of an empty sequence, int of a non-digit,
                         interp1d on sequences of different lengths *)
| IndexError          (* s[-1] on the empty string *)
| AttributeError      (* .group on the None of a failed re.search *)
| TypeError           (* a table of the other variant *)
| SourceError         (* the file is not what its name announces *)
| ZeroDivisionError.  (* a division whose divisor is zero *)

Inductive result (A : Type) : Type :=
| Ok (a : A)
| Raised (e : exn).
Arguments Ok {A} a.
Arguments Raised {A} e.

#[global] Instance result_ret : MRet result := fun A a => Ok a.
#[global] Instance result_bind : MBind result := fun A B f m =>
  match m with
  | Ok a => f a
  | Raised e => Raised e
  end.

#[global] Instance result_fmap : FMap result := fun A B f m =>
  match m with
  | Ok a => Ok (f a)
  | Raised e => Raised e
  end.

#[global] Instance exn_eq_dec : EqDecision exn.
Proof. solve_decision. Defined.

(** ** Numbers *)

(** [x < y] on floats, as a boolean. *)
Definition Qltb (x y : Q) : bool := negb (Qle_bool y x).

(** Python's [x / y].  A zero divisor is a fault of its own: on Python
    numbers the division raises [ZeroDivisionError], on numpy values it
    yields an infinite or NaN result (the module silences the warning).  The
    model has one outcome for both, [Raised ZeroDivisionError]. *)
Definition py_div (x y : Q) : result Q :=
  if Qeq_bool y 0 then Raised ZeroDivisionError else Ok (x / y).

(** Python's builtin [max(seq)]: the first element, replaced by every later
    element that is strictly greater; the empty sequence raises. *)
Definition py_max (l : list Q) : result Q :=
  match l with
  | [] => Raised ValueError
  | x :: xs => Ok (fold_left (fun m y => if Qltb m y then y else m) xs x)
  end.

(** [np.insert(a, 0, 0)]: a new array with a zero in front. *)
Definition np_insert0 (a : list Q) : list Q := 0 :: a.

(** [a * factor] on an array. *)
Definition np_scale (a : list Q) (factor : Q) : list Q :=
  map (fun v => v * factor) a.

(** [a[a < 0] = 0.0]: the negative entries are overwritten by zero. *)
Definition truncate_negative (a : list Q) : list Q :=
  map (fun v => if Qltb v 0 then 0 else v) a.

(** ** Dictionaries that the code reads *)

Definition dict (V : Type) : Type := list (string * V).

Fixpoint dict_get {V} (k : string) (d : dict V) : result V :=
  match d with
  | [] => Raised KeyError
  | (k', v) :: rest => if String.eqb k k' then Ok v else dict_get k rest
  end.

(** [d[k] = v]: the value of an existing key is replaced where it stands, a
    new key goes to the end. *)
Fixpoint dict_set {V} (k : string) (v : V) (d : dict V) : dict V :=
  match d with
  | [] => [(k, v)]
  | (k', v') :: rest =>
      if String.eqb k k' then (k', v) :: rest else (k', v') :: dict_set k v rest
  end.

Definition keys {V} (d : dict V) : list string := map fst d.

(** A Python dict has pairwise distinct keys, so [for k in d: ... d[k] ...]
    visits its items in insertion order.  [for_items] is such a loop whose
    body may raise and may overwrite the value it visits in place; it
    returns the raised exception or the accumulator, together with the dict
    as the loop has left it. *)
Fixpoint for_items {V A} (body : string -> V -> A -> result A * V)
    (d : dict V) (acc : A) : result A * dict V :=
  match d with
  | [] => (Ok acc, [])
  | (k, v) :: rest =>
      let '(r, v') := body k v acc in
      match r with
      | Ok acc' =>
          let '(r', rest') := for_items body rest acc' in (r', (k, v') :: rest')
      | Raised e => (Raised e, (k, v') :: rest)
      end
  end.

(** The same loop with a body that only reads. *)
Fixpoint for_each {V A} (body : string -> V -> A -> result A)
    (d : dict V) (acc : A) : result A :=
  match d with
  | [] => Ok acc
  | (k, v) :: rest => acc' ← body k v acc; for_each body rest acc'
  end.

(** ** Strings *)

Fixpoint last_char (s : string) : option Ascii.ascii :=
  match s with
  | EmptyString => None
  | String c EmptyString => Some c
  | String _ r => last_char r
  end.

(** [int(i[-1])] for a story or floor identifier [i] (ASCII). *)
Definition int_of_last (i : string) : result Z :=
  match last_char i with
  | None => Raised IndexError
  | Some c =>
      let n := Ascii.nat_of_ascii c in
      if ((48 <=? n) && (n <=? 57))%nat then Ok (Z.of_nat (n - 48))
      else Raised ValueError
  end.

(** [s.endswith(suf)] and [s.startswith(pre)]. *)
Definition endswith (s suf : string) : bool :=
  let n := String.length s in
  let m := String.length suf in
  (m <=? n)%nat && String.eqb (String.substring (n - m) m s) suf.

Definition startswith (s pre : string) : bool := String.prefix pre s.

(** [key[-3:]]: the last three characters, the whole string when it is
    shorter. *)
Definition last3 (s : string) : string :=
  let n := String.length s in String.substring (n - 3) 3 s.

(** Group 1 of [re.search] on the key, for the pattern that is an
    underscore, a greedy group of any characters, and an underscore
    (line 86 of the source).  The leftmost underscore that has
    another one after it on its line starts the match; the group is greedy
    and runs to the last underscore of that line ([.] matches everything
    but a newline). *)
Definition newline : Ascii.ascii := Ascii.ascii_of_nat 10.

Fixpoint line_of (s : string) : string :=
  match s with
  | EmptyString => EmptyString
  | String c r => if Ascii.eqb c newline then EmptyString else String c (line_of r)
  end.

Fixpoint before_last_underscore (s : string) : option string :=
  match s with
  | EmptyString => None
  | String c r =>
      match before_last_underscore r with
      | Some p => Some (String c p)
      | None => if Ascii.eqb c "_"%char then Some EmptyString else None
      end
  end.

Fixpoint re_search_group1 (s : string) : result string :=
  match s with
  | EmptyString => Raised AttributeError
  | String c r =>
      if Ascii.eqb c "_"%char then
        match before_last_underscore (line_of r) with
        | Some g => Ok g
        | None => re_search_group1 r
        end
      else re_search_group1 r
  end.

(** ** The data model *)

(** A leaf of the structured table: [{"edp": array, "loss": array}]. *)
Record leaf : Type := Leaf { edp : list Q; loss : list Q }.

(** What [df[d][key]] holds: stories (or floors) directly, or directions and
    stories below them. *)
Inductive entry : Type :=
| Stories (s : dict leaf)
| Directions (ds : dict (dict leaf)).

Definition structured : Type := dict (dict entry).
Definition legacy : Type := dict (list Q).

(** The raw loss table, in one of its two layouts. *)
Inductive raw_table : Type :=
| LegacyTable (t : legacy)
| StructuredTable (t : structured).

(** The code decides by the class name which shape it subscripts.  The empty
    dict has both shapes; a non-empty dict of the other shape fails at the
    first subscript below it. *)
Definition as_stories (e : entry) : result (dict leaf) :=
  match e with
  | Stories s => Ok s
  | Directions [] => Ok []
  | Directions (_ :: _) => Raised KeyError
  end.

Definition as_directions (e : entry) : result (dict (dict leaf)) :=
  match e with
  | Directions ds => Ok ds
  | Stories [] => Ok []
  | Stories (_ :: _) => Raised KeyError
  end.

(** The interpolant.  [scipy.interpolate.interp1d] is an external library:
    the object it returns is modelled by the two sample sequences it was
    built from, which must be of equal length. *)
Record interpolant : Type := Interp { xs : list Q; ys : list Q }.

Definition interp1d (x y : list Q) : result interpolant :=
  if Nat.eqb (length x) (length y) then Ok (Interp x y) else Raised ValueError.

(** Calling the interpolant (the default, linear kind on samples with
    increasing [x]): outside the sampled range it raises, a sample point
    inside the first segment that reaches it is interpolated linearly. *)
Fixpoint interp_segments (x y : list Q) (v : Q) : result Q :=
  match x, y with
  | x0 :: ((x1 :: _) as x'), y0 :: ((y1 :: _) as y') =>
      if Qle_bool v x1 then
        slope ← py_div (y1 - y0) (x1 - x0); Ok (slope * (v - x0) + y0)
      else interp_segments x' y' v
  | _, _ => Raised ValueError
  end.

Definition interp_call (f : interpolant) (v : Q) : result Q :=
  match xs f with
  | [] => Raised ValueError
  | x0 :: _ => if Qltb v x0 then Raised ValueError else interp_segments (xs f) (ys f) v
  end.

(** The table the builder returns. *)
Inductive out_entry : Type :=
| OutStories (m : gmap Z interpolant)
| OutDirections (m : gmap string (gmap Z interpolant)).

Inductive table : Type :=
| LegacyFunctions (m : gmap string interpolant)
| StructuredFunctions (m : gmap string (gmap string out_entry)).

(** ** class SLF *)

Record SLF : Type := MkSLF {
  fileName : string;
  nstories : Z;
  repl_cost : Q;
  flag3d : bool;
  normalize : bool;
  flag : bool
}.

(** [__init__]; the defaults of the keyword arguments are [repl_cost=1.],
    [flag3d=True], [normalize=False]. *)
Definition SLF_init (fileName : string) (nstories : Z) (repl_cost : Q)
    (flag3d normalize : bool) : SLF :=
  MkSLF fileName nstories repl_cost flag3d normalize
        (if endswith fileName "xlsx" then false else true).

(** [for x in seq] over a list, with a body that may raise. *)
Fixpoint for_list {A B} (body : B -> A -> result A) (l : list B) (acc : A)
    : result A :=
  match l with
  | [] => Ok acc
  | b :: rest => acc' ← body b acc; for_list body rest acc'
  end.

(** *** provided_slf *)

(** [series * peak / m * weight] on a column, element by element. *)
Definition rescale (series : list Q) (peak m weight : Q) : result (list Q) :=
  if Qeq_bool m 0 then Raised ZeroDivisionError
  else Ok (map (fun s => s * peak / m * weight) series).

(** Lines 42 to 59: the spreadsheet has been read into [df]. *)
Definition provided_slf_legacy (self : SLF) (df : legacy) : result legacy :=
  y_ns_pfa_range ← dict_get "E_NS_PFA" df;
  y_s_psd_range ← dict_get "E_S_IDR" df;
  y_ns_psd_range ← dict_get "E_NS_IDR" df;
  a ← py_max y_s_psd_range;
  b ← py_max y_ns_psd_range;
  c ← py_max y_ns_pfa_range;
  let max_slf := a + b + c in
  m ← py_max y_s_psd_range;
  max_s_psd ← py_div m max_slf;
  m ← py_max y_ns_psd_range;
  max_ns_psd ← py_div m max_slf;
  m ← py_max y_ns_pfa_range;
  max_ns_pfa ← py_div m max_slf;
  storey_loss_ratio_weight ← py_div 1 (inject_Z (nstories self));
  col ← dict_get "E_NS_PFA" df;
  m ← py_max y_ns_pfa_range;
  col ← rescale col max_ns_pfa m storey_loss_ratio_weight;
  let df := dict_set "E_NS_PFA" col df in
  col ← dict_get "E_NS_IDR" df;
  m ← py_max y_ns_psd_range;
  col ← rescale col max_ns_psd m storey_loss_ratio_weight;
  let df := dict_set "E_NS_IDR" col df in
  col ← dict_get "E_S_IDR" df;
  m ← py_max y_s_psd_range;
  col ← rescale col max_s_psd m storey_loss_ratio_weight;
  let df := dict_set "E_S_IDR" col df in
  Ok df.

(** [provided_slf], with the content of the file as an argument.  A
    spreadsheet holds a flat table; any other file is unpickled and returned
    as it is. *)
Definition provided_slf (self : SLF) (content : raw_table) : result raw_table :=
  if negb (flag self) then
    match content with
    | LegacyTable df => LegacyTable <$> provided_slf_legacy self df
    | StructuredTable _ => Raised SourceError
    end
  else Ok content.

(** *** get_interpolation_functions: the flat table (lines 82 to 93) *)

Definition legacy_column (df : legacy) (key : string) (col : list Q)
    (acc : gmap string interpolant) : result (gmap string interpolant) :=
  if startswith key "E_" then
    let slf_temp := np_insert0 col in
    component_type ← re_search_group1 key;
    edp_temp ← match dict_get (last3 key ++ "_" ++ component_type) df with
               | Ok column => Ok column
               | Raised _ => dict_get (last3 key) df
               end;
    let edp_temp := np_insert0 edp_temp in
    f ← interp1d edp_temp slf_temp;
    Ok (<[last3 key ++ "_" ++ component_type := f]> acc)
  else Ok acc.

Definition legacy_functions (df : legacy) : result (gmap string interpolant) :=
  for_each (legacy_column df) df ∅.

(** *** get_interpolation_functions: the nested table *)

(** Lines 101 to 102 and 111 to 112: [total_comp_cost += max(...["loss"])]
    for every story or floor of one dict. *)
Definition add_peaks (s : dict leaf) (total_comp_cost : Q) : result Q :=
  for_each (fun _ lf total => m ← py_max (loss lf); Ok (total + m))
           s total_comp_cost.

Definition directions (self : SLF) : list string :=
  if flag3d self then ["dir1"; "dir2"] else ["dir1"].

(** Lines 100 to 112, the body of the loop over the demand-parameter keys of
    the class [d]. *)
Definition add_entry_cost (self : SLF) (d : string) (e : entry)
    (total_comp_cost : Q) : result Q :=
  if String.eqb d "Non-directional" then
    s ← as_stories e; add_peaks s total_comp_cost
  else
    ds ← as_directions e;
    for_list (fun x total => s ← dict_get x ds; add_peaks s total)
             (directions self) total_comp_cost.

(** Lines 97 to 112. *)
Definition total_comp_cost (self : SLF) (df : structured) : result Q :=
  for_each (fun d g total =>
              for_each (fun _ e total => add_entry_cost self d e total) g total)
           df 0.

(** Lines 114 to 117. *)
Definition normalization_factor (self : SLF) (total_comp_cost : Q) : result Q :=
  if normalize self then py_div (repl_cost self) total_comp_cost else Ok 1.

(** Lines 129 to 135, one story or floor of a non-directional group.  The
    loss array of the raw table is overwritten in place (line 132); the
    right-hand side of line 135 is evaluated before its subscript. *)
Definition nondirectional_story (factor : Q) (i : string) (lf : leaf)
    (acc : gmap Z interpolant) : result (gmap Z interpolant) * leaf :=
  let edp_temp := np_insert0 (edp lf) in
  let lf := Leaf (edp lf) (truncate_negative (loss lf)) in
  let slf_temp := np_insert0 (loss lf) in
  (f ← interp1d edp_temp (np_scale slf_temp factor);
   k ← int_of_last i;
   Ok (<[k := f]> acc), lf).

(** Lines 144 to 147, one story of one direction. *)
Definition directional_story (factor : Q) (i : string) (lf : leaf)
    (acc : gmap Z interpolant) : result (gmap Z interpolant) :=
  let edp_temp := np_insert0 (edp lf) in
  let slf_temp := np_insert0 (loss lf) in
  f ← interp1d edp_temp (np_scale slf_temp factor);
  k ← int_of_last i;
  Ok (<[k := f]> acc).

(** Lines 140 to 147, the directions of one demand-parameter key. *)
Definition directional_group (factor : Q) (ds : dict (dict leaf))
    : result (gmap string (gmap Z interpolant)) :=
  for_each (fun x s acc =>
              m ← for_each (directional_story factor) s ∅; Ok (<[x := m]> acc))
           ds ∅.

(** Lines 124 to 147, one demand-parameter key of the class [d]. *)
Definition build_entry (factor : Q) (d key : string) (e : entry)
    (acc : gmap string out_entry) : result (gmap string out_entry) * entry :=
  if String.eqb d "Non-directional" then
    match e with
    | Stories s =>
        let '(r, s') := for_items (nondirectional_story factor) s ∅ in
        (m ← r; Ok (<[key := OutStories m]> acc), Stories s')
    | Directions [] => (Ok (<[key := OutStories ∅]> acc), e)
    | Directions (_ :: _) => (Raised KeyError, e)
    end
  else
    match e with
    | Directions ds =>
        (m ← directional_group factor ds; Ok (<[key := OutDirections m]> acc), e)
    | Stories [] => (Ok (<[key := OutDirections ∅]> acc), e)
    | Stories (_ :: _) => (Raised KeyError, e)
    end.

(** Lines 121 to 147, one directionality class. *)
Definition build_class (factor : Q) (d : string) (g : dict entry)
    (acc : gmap string (gmap string out_entry))
    : result (gmap string (gmap string out_entry)) * dict entry :=
  let '(r, g') := for_items (build_entry factor d) g ∅ in
  (m ← r; Ok (<[d := m]> acc), g').

(** Lines 97 to 147.  The second component is the raw table as the call
    leaves it. *)
Definition structured_functions (self : SLF) (df : structured)
    : result (gmap string (gmap string out_entry)) * structured :=
  match total_comp_cost self df with
  | Raised ex => (Raised ex, df)
  | Ok total =>
      match normalization_factor self total with
      | Raised ex => (Raised ex, df)
      | Ok factor => for_items (build_class factor) df ∅
      end
  end.

(** [get_interpolation_functions].  [provided_slf] hands over a flat table
    when [flag] is false and a nested one otherwise; a table of the other
    layout is not an input of this pipeline. *)
Definition get_interpolation_functions (self : SLF) (df : raw_table)
    : result table * raw_table :=
  if negb (flag self) then
    match df with
    | LegacyTable t => (LegacyFunctions <$> legacy_functions t, df)
    | StructuredTable _ => (Raised TypeError, df)
    end
  else
    match df with
    | StructuredTable t =>
        let '(r, t') := structured_functions self t in
        (StructuredFunctions <$> r, StructuredTable t')
    | LegacyTable _ => (Raised TypeError, df)
    end.

(** ** Reading the returned table *)

(** [t[d][key][k]] in a non-directional class. *)
Definition out_story (t : gmap string (gmap string out_entry))
    (d key : string) (k : Z) : option interpolant :=
  g ← t !! d;
  e ← g !! key;
  match e with
  | OutStories m => m !! k
  | OutDirections _ => None
  end.

(** [t[d][key][x][k]] in a directional class. *)
Definition out_direction_story (t : gmap string (gmap string out_entry))
    (d key x : string) (k : Z) : option interpolant :=
  g ← t !! d;
  e ← g !! key;
  match e with
  | OutDirections m => s ← m !! x; s !! k
  | OutStories _ => None
  end.

(** ** The examples of the specification *)

Module Scenario.

(** Two stories, [edp = [0.01, 0.02]] and [loss = [100, 200]] each. *)
Definition story : leaf := Leaf [1 # 100; 2 # 100] [100; 200].

Definition df : structured :=
  [("Non-directional",
    [("PFA_NS", Stories [("story0", story); ("story1", story)])])].

(** [SLF("slfs.pickle", 2, repl_cost=1000, normalize=True)] *)
Definition slf : SLF := SLF_init "slfs.pickle" 2 1000 true true.

(** The same table with all losses zero. *)
Definition zero_story : leaf := Leaf [1 # 100; 2 # 100] [0; 0].


(** A table with a loss sample of [-5], once in a non-directional group and
    once in a directional one. *)
Definition negative_story : leaf := Leaf [1 # 100; 2 # 100] [-5; 10].

Definition negative_df : structured :=
  [("Non-directional", [("PFA_NS", Stories [("story1", negative_story)])]);
   ("Directional",
    [("IDR_NS", Directions [("dir1", [("story1", negative_story)]);
                            ("dir2", [("story1", negative_story)])])])].

(** [SLF("slfs.pickle", 1)]: no normalization. *)
Definition plain_slf : SLF := SLF_init "slfs.pickle" 1 1 true false.

(** [SLF("slfs.pickle", 1, flag3d=False)]: a planar model. *)
Definition planar_slf : SLF := SLF_init "slfs.pickle" 1 1 false false.

(** Losses in the secondary direction only. *)
Definition secondary_df : structured :=
  [("Directional",
    [("IDR_NS", Directions [("dir1", [("story1", zero_story)]);
                            ("dir2", [("story1", story)])])])].

(** What the builder returns for [df], and its interpolant of story 0. *)
Definition table : table :=
  match fst (get_interpolation_functions slf (StructuredTable df)) with
  | Ok t => t
  | Raised _ => LegacyFunctions ∅
  end.


(** Identifiers that end in the same character: ["story3"] and ["floor3"]
    in one group, ["story2"] and ["story12"] in another. *)
Definition collided_df : structured :=
  [("Non-directional",
    [("PFA_NS", Stories [("story3", story); ("floor3", zero_story)])]);
   ("Directional",
    [("IDR_NS", Directions [("dir1", [("story2", story); ("story12", zero_story)]);
                            ("dir2", [("story2", story)])])])].

Definition collided_table : gmap string (gmap string out_entry) :=
  match fst (structured_functions plain_slf collided_df) with
  | Ok t => t
  | Raised _ => ∅
  end.

(** The spreadsheet of the flat layout, [SLF("slf.xlsx", 2)]. *)
Definition legacy_df : legacy :=
  [("IDR", [1 # 100; 2 # 100]);
   ("E_S_IDR", [1; 2]);
   ("E_NS_IDR", [1; 3]);
   ("PFA", [1 # 10; 2 # 10]);
   ("E_NS_PFA", [2; 5])].

Definition legacy_slf : SLF := SLF_init "slf.xlsx" 2 1 true false.

End Scenario.

(** ** The notions that the properties are stated with *)

Local Open Scope list_scope.


(** The words of the specification: the peak of a leaf is the maximum of its
    loss samples, and the total is the sum of the peaks of the leaves that
    count. *)
Definition peak (lf : leaf) : Q :=
  match py_max (loss lf) with
  | Ok m => m
  | Raised _ => 0
  end.

Definition sum_peaks (ls : list leaf) : Q :=
  fold_right (fun lf t => peak lf + t) 0 ls.

Definition is_nondirectional (d : string) : bool := String.eqb d "Non-directional".

Definition entry_stories (e : entry) : list leaf :=
  match e with
  | Stories s => map snd s
  | Directions _ => []
  end.

Definition entry_direction (x : string) (e : entry) : list leaf :=
  match e with
  | Directions ds =>
      match dict_get x ds with
      | Ok s => map snd s
      | Raised _ => []
      end
  | Stories _ => []
  end.

(** Every story or floor of every non-directional entry. *)
Definition nondirectional_leaves (df : structured) : list leaf :=
  flat_map (fun '(d, g) =>
              if is_nondirectional d
              then flat_map (fun '(_, e) => entry_stories e) g
              else []) df.

(** Every story of the direction [x] of every directional entry. *)
Definition direction_leaves (x : string) (df : structured) : list leaf :=
  flat_map (fun '(d, g) =>
              if is_nondirectional d
              then []
              else flat_map (fun '(_, e) => entry_direction x e) g) df.

(** The tables on which the aggregation raises nothing: every entry has the
    shape of its class, a directional entry has the directions that are
    read, and no loss sequence that is read is empty. *)
Definition peaks_defined (s : dict leaf) : bool :=
  forallb (fun '(_, lf) => match loss lf with [] => false | _ :: _ => true end) s.

Definition entry_aggregable (self : SLF) (d : string) (e : entry) : bool :=
  if is_nondirectional d then
    match as_stories e with
    | Ok s => peaks_defined s
    | Raised _ => false
    end
  else
    match as_directions e with
    | Ok ds =>
        forallb (fun x => match dict_get x ds with
                          | Ok s => peaks_defined s
                          | Raised _ => false
                          end) (directions self)
    | Raised _ => false
    end.

Definition aggregable (self : SLF) (df : structured) : bool :=
  forallb (fun '(d, g) => forallb (fun '(_, e) => entry_aggregable self d e) g) df.

(** What one entry adds to the total, in the words of the specification. *)
Definition entry_contribution (self : SLF) (d : string) (e : entry) : Q :=
  if is_nondirectional d then sum_peaks (entry_stories e)
  else sum_peaks (entry_direction "dir1" e)
       + (if flag3d self then sum_peaks (entry_direction "dir2" e) else 0).

(** The sum of the contributions of the entries of one class. *)
Definition group_contribution (self : SLF) (d : string) (g : dict entry) : Q :=
  fold_right (fun '(_, e) t => entry_contribution self d e + t) 0 g.

Definition table_contribution (self : SLF) (df : structured) : Q :=
  fold_right (fun '(d, g) t => group_contribution self d g + t) 0 df.

(** A column of the returned table holds the samples of [series], each
    multiplied by [(m / max_total) / m * (1 / n)], which is the sample
    divided by [max_total] and by [n]. *)
Definition column_rescaled (df' : legacy) (column : string) (series : list Q)
    (m max_total n : Q) : Prop :=
  exists rewritten,
    dict_get column df' = Ok rewritten /\
    Forall2 (fun s s' => s' == s * (m / max_total / m * (1 / n)) /\
                         s' == s / max_total / n)
            series rewritten.






(** Line 132 on one leaf, on one entry and on the whole table. *)
Definition truncate_leaf (lf : leaf) : leaf :=
  Leaf (edp lf) (truncate_negative (loss lf)).

Definition truncate_entry (e : entry) : entry :=
  match e with
  | Stories s => Stories (map (fun '(i, lf) => (i, truncate_leaf lf)) s)
  | Directions _ => e
  end.

Definition truncated_table (df : structured) : structured :=
  map (fun '(d, g) =>
         (d, map (fun '(key, e) =>
                    (key, if is_nondirectional d then truncate_entry e else e)) g))
      df.



(** The interpolant that lines 129 to 135 ([truncate] set) and lines 144 to
    147 ([truncate] not set) build from one leaf. *)
Definition story_function (truncate : bool) (factor : Q) (lf : leaf) : interpolant :=
  Interp (np_insert0 (edp lf))
         (np_scale (np_insert0 (if truncate then truncate_negative (loss lf)
                                else loss lf)) factor).

(** What one pass of the loop over the stories returns. *)
Definition store_story (truncate : bool) (factor : Q) (i : string) (lf : leaf)
    (acc : gmap Z interpolant) : result (gmap Z interpolant) :=
  f ← interp1d (xs (story_function truncate factor lf))
               (ys (story_function truncate factor lf));
  k ← int_of_last i;
  Ok (<[k := f]> acc).

(** No identifier of [s] has the key [k]. *)
Definition no_story_at (k : Z) (s : dict leaf) : Prop :=
  Forall (fun '(i, _) => int_of_last i <> Ok k) s.

(** The keys of a dict are pairwise distinct. *)
Fixpoint distinct (l : list string) : bool :=
  match l with
  | [] => true
  | k :: rest => negb (existsb (String.eqb k) rest) && distinct rest
  end.

(** The dicts above the stories, as Python has them: no key twice. *)
Definition entry_distinct (e : entry) : bool :=
  match e with
  | Stories _ => true
  | Directions ds => distinct (keys ds)
  end.

Definition distinct_keys (df : structured) : bool :=
  distinct (keys df)
  && forallb (fun '(_, g) =>
                distinct (keys g) && forallb (fun '(_, e) => entry_distinct e) g)
             df.

(** What is stored for one demand-parameter key, and for one class. *)
Definition entry_functions (factor : Q) (d : string) (e : entry) : result out_entry :=
  if String.eqb d "Non-directional" then
    match e with
    | Stories s => m ← for_each (store_story true factor) s ∅; Ok (OutStories m)
    | Directions [] => Ok (OutStories ∅)
    | Directions (_ :: _) => Raised KeyError
    end
  else
    match e with
    | Directions ds =>
        m ← for_each (fun x s acc =>
                        m ← for_each (store_story false factor) s ∅;
                        Ok (<[x := m]> acc)) ds ∅;
        Ok (OutDirections m)
    | Stories [] => Ok (OutDirections ∅)
    | Stories (_ :: _) => Raised KeyError
    end.

Definition class_functions (factor : Q) (d : string) (g : dict entry)
    : result (gmap string out_entry) :=
  for_each (fun key e acc => o ← entry_functions factor d e; Ok (<[key := o]> acc))
           g ∅.

(** The claim of the round trip for every table: whatever identifier of a
    group ends in a digit, the interpolant of its entry is what the returned
    table holds at the integer of that digit. *)
Definition identifier_roundtrip (self : SLF) (df : structured) : Prop :=
  forall t df' total factor,
    structured_functions self df = (Ok t, df') ->
    total_comp_cost self df = Ok total ->
    normalization_factor self total = Ok factor ->
    (forall d g key s i lf k,
        In (d, g) df -> is_nondirectional d = true ->
        In (key, Stories s) g -> In (i, lf) s ->
        int_of_last i = Ok k ->
        out_story t d key k = Some (story_function true factor lf)) /\
    (forall d g key ds x s i lf k,
        In (d, g) df -> is_nondirectional d = false ->
        In (key, Directions ds) g -> In (x, s) ds -> In (i, lf) s ->
        int_of_last i = Ok k ->
        out_direction_story t d key x k = Some (story_function false factor lf)).

(** A story whose sequences have one length and whose identifier ends in a
    digit; a table whose entries have the shape of their class and hold
    such stories only. *)
Definition story_ok (item : string * leaf) : bool :=
  let '(i, lf) := item in
  Nat.eqb (length (edp lf)) (length (loss lf))
  && match int_of_last i with Ok _ => true | Raised _ => false end.

Definition entry_well_shaped (d : string) (e : entry) : bool :=
  if is_nondirectional d then
    match e with
    | Stories s => forallb story_ok s
    | Directions [] => true
    | Directions (_ :: _) => false
    end
  else
    match e with
    | Directions ds => forallb (fun '(_, s) => forallb story_ok s) ds
    | Stories [] => true
    | Stories (_ :: _) => false
    end.

Definition well_shaped (df : structured) : bool :=
  forallb (fun '(d, g) => forallb (fun '(_, e) => entry_well_shaped d e) g) df.

(** ** Further notions: identifiers and groups *)


(** Every key of a group is one of the ten digits. *)
Definition digit_keys (m : gmap Z interpolant) : Prop :=
  map_Forall (fun (k : Z) (_ : interpolant) => (0 <= k <= 9)%Z) m.

(** Every loss sample that an interpolant holds is at least zero. *)
Definition nonnegative_function (f : interpolant) : Prop :=
  Forall (fun y => 0 <= y) (ys f).

(** A property of the groups of a table: [G true] of the groups of the
    non-directional entries, [G false] of the groups of every direction. *)
Definition entry_groups (G : bool -> gmap Z interpolant -> Prop) (e : out_entry)
    : Prop :=
  match e with
  | OutStories m => G true m
  | OutDirections dm => map_Forall (fun _ m => G false m) dm
  end.

Definition table_groups (G : bool -> gmap Z interpolant -> Prop)
    (t : gmap string (gmap string out_entry)) : Prop :=
  map_Forall (fun _ cm => map_Forall (fun _ e => entry_groups G e) cm) t.

(** The class names, the demand-parameter keys or the directions of a dict,
    as a set. *)
Definition key_set {V} (d : dict V) : gset string := list_to_set (keys d).

(** ** Further notions: the loader of the flat table *)

(** The names of the three loss columns that the loader rewrites. *)
Definition loss_columns : list string := ["E_NS_PFA"; "E_S_IDR"; "E_NS_IDR"].

(** What line 57, 58 or 59 makes of one sample [s] of a column with maximum
    [m], for the sum [max_slf] of the three maxima and [n] stories. *)
Definition rescaled_sample (m max_slf n : Q) (s : Q) : Q :=
  s * (m / max_slf) / m * (1 / n).

(** ** Further notions: names of files and of columns *)

(** The character [c] occurs in [s]. *)
Fixpoint has_char (c : Ascii.ascii) (s : string) : bool :=
  match s with
  | EmptyString => false
  | String a r => Ascii.eqb a c || has_char c r
  end.

(** Where an interpolant of the flat layout comes from: a loss column whose
    name starts with ["E_"], its component type [ct], and the demand column
    named by the last three characters of the name followed by [ct], or by
    the last three characters alone when there is no such column. *)
Definition legacy_origin (df : legacy) (k : string) (f : interpolant) : Prop :=
  exists key col ct demand,
    In (key, col) df /\
    startswith key "E_" = true /\
    re_search_group1 key = Ok ct /\
    k = (last3 key ++ "_" ++ ct)%string /\
    (dict_get k df = Ok demand \/
     (dict_get k df = Raised KeyError /\ dict_get (last3 key) df = Ok demand)) /\
    f = Interp (0 :: demand) (0 :: col).

(** ** Further notions: exceptions *)


(** The exceptions of the builder of the flat table. *)
Definition flat_error (ex : exn) : Prop :=
  ex = AttributeError \/ ex = KeyError \/ ex = ValueError.

(** * Properties *)

(** ** Properties of the normalization factor *)

Lemma py_div_nonzero (x y : Q) : ~ y == 0 -> py_div x y = Ok (x / y).
Proof.
  intros Hy. unfold py_div.
  destruct (Qeq_bool y 0) eqn:E; [|reflexivity].
  apply Qeq_bool_iff in E. contradiction.
Qed.


Lemma py_div_Ok (x y q : Q) : py_div x y = Ok q -> ~ y == 0 /\ q = x / y.
Proof.
  unfold py_div. destruct (Qeq_bool y 0) eqn:E; [discriminate|].
  intros [= <-]. split; [|reflexivity].
  intros Hy. apply Qeq_bool_iff in Hy. congruence.
Qed.

(** C6.  Without [normalize] the factor is exactly 1, whatever the total of
    the component costs and the replacement cost are, and the table is built
    with that factor. *)
Theorem factor_is_one_without_normalize (self : SLF) :
  normalize self = false ->
  (forall total, normalization_factor self total = Ok 1) /\
  (forall df total,
      total_comp_cost self df = Ok total ->
      structured_functions self df = for_items (build_class 1) df ∅).
Proof.
  intros Hn. split.
  - intros total. unfold normalization_factor. now rewrite Hn.
  - intros df total Ht. unfold structured_functions, normalization_factor.
    now rewrite Ht, Hn.
Qed.

Lemma factor_is_one_without_normalize_witness :
  normalize Scenario.plain_slf = false /\
  (forall total, normalization_factor Scenario.plain_slf total = Ok 1).
Proof.
  split; [reflexivity|].
  apply (factor_is_one_without_normalize Scenario.plain_slf). reflexivity.
Defined.




(** ** The total of the component costs *)

Lemma sum_peaks_app (a b : list leaf) :
  sum_peaks (a ++ b) == sum_peaks a + sum_peaks b.
Proof.
  induction a as [|lf a IH]; simpl.
  - lra.
  - rewrite IH. lra.
Qed.

Lemma peak_of_max (lf : leaf) (m : Q) : py_max (loss lf) = Ok m -> peak lf = m.
Proof. unfold peak. now intros ->. Qed.

Lemma add_peaks_sum (s : dict leaf) (acc t : Q) :
  add_peaks s acc = Ok t -> t == acc + sum_peaks (map snd s).
Proof.
  revert acc. induction s as [|[i lf] s IH]; intros acc; unfold add_peaks; simpl.
  - intros [= <-]. lra.
  - destruct (py_max (loss lf)) as [m|] eqn:Hm; simpl; [|discriminate].
    intros H. apply IH in H. rewrite (peak_of_max _ _ Hm). lra.
Qed.

Lemma add_peaks_defined (s : dict leaf) (acc : Q) :
  peaks_defined s = true -> exists t, add_peaks s acc = Ok t.
Proof.
  revert acc. induction s as [|[i lf] s IH]; intros acc; unfold add_peaks; simpl.
  - eauto.
  - intros [H1 H2]%andb_true_iff.
    destruct (loss lf) as [|v l] eqn:Hl; [discriminate|]. simpl.
    apply IH. exact H2.
Qed.

Lemma add_entry_cost_sum (self : SLF) (d : string) (e : entry) (acc t : Q) :
  add_entry_cost self d e acc = Ok t ->
  t == acc + entry_contribution self d e.
Proof.
  unfold add_entry_cost, entry_contribution, is_nondirectional.
  destruct (String.eqb d "Non-directional").
  - destruct e as [s|[|? ?]]; simpl; try discriminate.
    + apply add_peaks_sum.
    + intros [= <-]. lra.
  - destruct e as [[|? ?]|ds]; simpl; try discriminate.
    + unfold directions. destruct (flag3d self); simpl; discriminate.
    + unfold directions. destruct (flag3d self); simpl.
      * destruct (dict_get "dir1" ds) as [s1|]; simpl; [|discriminate].
        destruct (add_peaks s1 acc) as [t1|] eqn:H1; simpl; [|discriminate].
        destruct (dict_get "dir2" ds) as [s2|]; simpl; [|discriminate].
        destruct (add_peaks s2 t1) as [t2|] eqn:H2; simpl; [|discriminate].
        intros [= <-]. apply add_peaks_sum in H1, H2. lra.
      * destruct (dict_get "dir1" ds) as [s1|]; simpl; [|discriminate].
        destruct (add_peaks s1 acc) as [t1|] eqn:H1; simpl; [|discriminate].
        intros [= <-]. apply add_peaks_sum in H1. lra.
Qed.

Lemma add_entry_cost_defined (self : SLF) (d : string) (e : entry) (acc : Q) :
  entry_aggregable self d e = true -> exists t, add_entry_cost self d e acc = Ok t.
Proof.
  unfold add_entry_cost, entry_aggregable, is_nondirectional.
  destruct (String.eqb d "Non-directional").
  - destruct (as_stories e) as [s|]; simpl; [|discriminate].
    apply add_peaks_defined.
  - destruct (as_directions e) as [ds|]; simpl; [|discriminate].
    unfold directions. destruct (flag3d self); simpl.
    + destruct (dict_get "dir1" ds) as [s1|]; simpl; [|discriminate].
      destruct (dict_get "dir2" ds) as [s2|]; simpl;
        [|rewrite andb_false_r; discriminate].
      rewrite andb_true_r. intros [H1 H2]%andb_true_iff.
      destruct (add_peaks_defined s1 acc H1) as [t1 ->]. simpl.
      destruct (add_peaks_defined s2 t1 H2) as [t2 ->]. simpl. eauto.
    + destruct (dict_get "dir1" ds) as [s1|]; simpl; [|discriminate].
      rewrite andb_true_r. intros H1.
      destruct (add_peaks_defined s1 acc H1) as [t1 ->]. simpl. eauto.
Qed.

Lemma group_cost_sum (self : SLF) (d : string) (g : dict entry) (acc t : Q) :
  for_each (fun _ e total => add_entry_cost self d e total) g acc = Ok t ->
  t == acc + group_contribution self d g.
Proof.
  revert acc. induction g as [|[key e] g IH]; intros acc; simpl.
  - intros [= <-]. lra.
  - destruct (add_entry_cost self d e acc) as [t1|] eqn:H1; simpl; [|discriminate].
    intros H. apply IH in H. apply add_entry_cost_sum in H1. lra.
Qed.

Lemma group_cost_defined (self : SLF) (d : string) (g : dict entry) (acc : Q) :
  forallb (fun '(_, e) => entry_aggregable self d e) g = true ->
  exists t, for_each (fun _ e total => add_entry_cost self d e total) g acc = Ok t.
Proof.
  revert acc. induction g as [|[key e] g IH]; intros acc; simpl.
  - eauto.
  - intros [H1 H2]%andb_true_iff.
    destruct (add_entry_cost_defined self d e acc H1) as [t1 ->]. simpl.
    apply IH. exact H2.
Qed.

Lemma table_cost_sum (self : SLF) (df : structured) (acc t : Q) :
  for_each (fun d g total =>
              for_each (fun _ e total => add_entry_cost self d e total) g total)
           df acc = Ok t ->
  t == acc + table_contribution self df.
Proof.
  revert acc. induction df as [|[d g] df IH]; intros acc; simpl.
  - intros [= <-]. lra.
  - destruct (for_each _ g acc) as [t1|] eqn:H1; simpl; [|discriminate].
    intros H. apply IH in H. apply group_cost_sum in H1. lra.
Qed.

Lemma table_cost_defined (self : SLF) (df : structured) (acc : Q) :
  aggregable self df = true ->
  exists t, for_each (fun d g total =>
              for_each (fun _ e total => add_entry_cost self d e total) g total)
           df acc = Ok t.
Proof.
  revert acc. induction df as [|[d g] df IH]; intros acc; simpl.
  - eauto.
  - intros [H1 H2]%andb_true_iff.
    destruct (group_cost_defined self d g acc H1) as [t1 ->]. simpl.
    apply IH. exact H2.
Qed.

(** The contributions, sorted by what they come from. *)
Lemma group_contribution_split (self : SLF) (d : string) (g : dict entry) :
  group_contribution self d g ==
  (if is_nondirectional d
   then sum_peaks (flat_map (fun '(_, e) => entry_stories e) g)
   else sum_peaks (flat_map (fun '(_, e) => entry_direction "dir1" e) g)
        + (if flag3d self
           then sum_peaks (flat_map (fun '(_, e) => entry_direction "dir2" e) g)
           else 0)).
Proof.
  unfold group_contribution, entry_contribution.
  induction g as [|[key e] g IH]; simpl.
  - destruct (is_nondirectional d), (flag3d self); simpl; lra.
  - rewrite IH. destruct (is_nondirectional d).
    + rewrite sum_peaks_app. lra.
    + destruct (flag3d self); rewrite ?sum_peaks_app; lra.
Qed.

Lemma table_contribution_split (self : SLF) (df : structured) :
  table_contribution self df ==
  sum_peaks (nondirectional_leaves df)
  + sum_peaks (direction_leaves "dir1" df)
  + (if flag3d self then sum_peaks (direction_leaves "dir2" df) else 0).
Proof.
  unfold table_contribution, nondirectional_leaves, direction_leaves.
  induction df as [|[d g] df IH]; simpl.
  - destruct (flag3d self); simpl; lra.
  - rewrite IH, group_contribution_split.
    destruct (is_nondirectional d); simpl.
    + rewrite sum_peaks_app. lra.
    + destruct (flag3d self); rewrite ?sum_peaks_app; lra.
Qed.

Lemma total_comp_cost_sum (self : SLF) (df : structured) (t : Q) :
  total_comp_cost self df = Ok t ->
  t == sum_peaks (nondirectional_leaves df)
       + sum_peaks (direction_leaves "dir1" df)
       + (if flag3d self then sum_peaks (direction_leaves "dir2" df) else 0).
Proof.
  intros H. apply table_cost_sum in H.
  rewrite <- table_contribution_split. lra.
Qed.

(** C7.  On a table that the aggregation can read, the total of the
    component costs is the sum of the loss maxima of every story or floor of
    the non-directional entries, plus those of the primary direction of the
    directional entries, plus, only when [flag3d] is set, those of the
    secondary direction. *)
Theorem total_comp_cost_by_direction (self : SLF) (df : structured) :
  aggregable self df = true ->
  exists t,
    total_comp_cost self df = Ok t /\
    t == sum_peaks (nondirectional_leaves df)
         + sum_peaks (direction_leaves "dir1" df)
         + (if flag3d self then sum_peaks (direction_leaves "dir2" df) else 0).
Proof.
  intros H. destruct (table_cost_defined self df 0 H) as [t Ht].
  exists t. split; [exact Ht|]. now apply total_comp_cost_sum.
Qed.

Lemma total_comp_cost_by_direction_witness :
  aggregable Scenario.planar_slf Scenario.secondary_df = true /\
  exists t,
    total_comp_cost Scenario.planar_slf Scenario.secondary_df = Ok t /\
    t == sum_peaks (nondirectional_leaves Scenario.secondary_df)
         + sum_peaks (direction_leaves "dir1" Scenario.secondary_df)
         + 0.
Proof.
  split; [reflexivity|].
  apply (total_comp_cost_by_direction Scenario.planar_slf Scenario.secondary_df).
  reflexivity.
Defined.

(** The test of the specification for the planar case: with losses in the
    secondary direction only, the total is zero, and it is the secondary
    peak once [flag3d] is set. *)
Example secondary_direction_excluded :
  total_comp_cost Scenario.planar_slf Scenario.secondary_df = Ok 0 /\
  total_comp_cost Scenario.plain_slf Scenario.secondary_df = Ok 200.
Proof. split; reflexivity. Qed.

(** ** Normalization *)

(** C4.  With [normalize] and a total that is not zero, the factor is the
    replacement cost divided by the total, the total is the sum of the loss
    maxima that the aggregation counts, and that sum scaled by the factor is
    the replacement cost.  In the example of the specification (two stories
    with losses 100 and 200, replacement cost 1000) the total is 400, the
    factor is 2.5, and the interpolant of story 0 gives 500 at a demand of
    0.02 and 0 at a demand of 0. *)
Theorem normalization_restores_replacement_cost :
  (forall (self : SLF) (df : structured) (total : Q),
      normalize self = true ->
      total_comp_cost self df = Ok total ->
      ~ total == 0 ->
      let peaks := sum_peaks (nondirectional_leaves df)
                   + sum_peaks (direction_leaves "dir1" df)
                   + (if flag3d self then sum_peaks (direction_leaves "dir2" df)
                      else 0) in
      exists factor,
        normalization_factor self total = Ok factor /\
        factor == repl_cost self / peaks /\
        peaks * factor == repl_cost self /\
        structured_functions self df = for_items (build_class factor) df ∅) /\
  (exists factor t df' f at_peak at_zero,
      total_comp_cost Scenario.slf Scenario.df = Ok 400 /\
      normalization_factor Scenario.slf 400 = Ok factor /\
      factor == 5 # 2 /\
      structured_functions Scenario.slf Scenario.df = (Ok t, df') /\
      out_story t "Non-directional" "PFA_NS" 0 = Some f /\
      interp_call f (2 # 100) = Ok at_peak /\ at_peak == 500 /\
      interp_call f 0 = Ok at_zero /\ at_zero == 0).
Proof.
  split.
  - intros self df total Hn Ht Hz peaks.
    pose proof (total_comp_cost_sum self df total Ht) as Hsum. fold peaks in Hsum.
    exists (repl_cost self / total). repeat split.
    + unfold normalization_factor. rewrite Hn. now apply py_div_nonzero.
    + now rewrite Hsum.
    + rewrite <- Hsum. field. exact Hz.
    + unfold structured_functions, normalization_factor.
      now rewrite Ht, Hn, (py_div_nonzero _ _ Hz).
  - do 6 eexists.
    split; [reflexivity|].
    split; [reflexivity|].
    split; [reflexivity|].
    split; [vm_compute; reflexivity|].
    split; [vm_compute; reflexivity|].
    split; [vm_compute; reflexivity|].
    split; [reflexivity|].
    split; [vm_compute; reflexivity|].
    reflexivity.
Qed.

Lemma normalization_restores_replacement_cost_witness :
  exists factor,
    normalization_factor Scenario.slf 400 = Ok factor /\
    factor == repl_cost Scenario.slf /
              (sum_peaks (nondirectional_leaves Scenario.df)
               + sum_peaks (direction_leaves "dir1" Scenario.df)
               + sum_peaks (direction_leaves "dir2" Scenario.df)) /\
    (sum_peaks (nondirectional_leaves Scenario.df)
     + sum_peaks (direction_leaves "dir1" Scenario.df)
     + sum_peaks (direction_leaves "dir2" Scenario.df)) * factor
    == repl_cost Scenario.slf /\
    structured_functions Scenario.slf Scenario.df
    = for_items (build_class factor) Scenario.df ∅.
Proof.
  apply (proj1 normalization_restores_replacement_cost Scenario.slf Scenario.df 400).
  - reflexivity.
  - reflexivity.
  - intros H. vm_compute in H. discriminate.
Defined.

(** ** Negative loss samples *)

(** C1 at a table with a loss sample of [-5] in both kinds of class.  The
    non-directional interpolant is built from the truncated losses; the
    directional one (lines 144 to 147 have no truncation) is built from the
    negative sample. *)
Example directional_losses_not_truncated :
  exists t df',
    structured_functions Scenario.plain_slf Scenario.negative_df = (Ok t, df') /\
    ys <$> out_story t "Non-directional" "PFA_NS" 1
      = Some [0 * 1; 0 * 1; 10 * 1] /\
    ys <$> out_direction_story t "Directional" "IDR_NS" "dir1" 1
      = Some [0 * 1; -5 * 1; 10 * 1].
Proof. do 2 eexists. repeat split; vm_compute; reflexivity. Qed.

(** ** The loader of the flat table *)

Lemma dict_get_set_eq {V} (k : string) (v : V) (d : dict V) :
  dict_get k (dict_set k v d) = Ok v.
Proof.
  induction d as [|[k' v'] d IH]; simpl.
  - now rewrite String.eqb_refl.
  - destruct (String.eqb k k') eqn:E; simpl; rewrite E; [reflexivity|exact IH].
Qed.

Lemma dict_get_set_ne {V} (k k' : string) (v : V) (d : dict V) :
  String.eqb k' k = false ->
  dict_get k' (dict_set k v d) = dict_get k' d.
Proof.
  intros Hne. induction d as [|[k0 v0] d IH]; simpl.
  - now rewrite Hne.
  - destruct (String.eqb k k0) eqn:E; simpl.
    + apply String.eqb_eq in E. subst k0. now rewrite Hne.
    + now rewrite IH.
Qed.

Lemma keys_dict_set {V} (k : string) (v v0 : V) (d : dict V) :
  dict_get k d = Ok v0 -> keys (dict_set k v d) = keys d.
Proof.
  unfold keys. induction d as [|[k' v'] d IH]; simpl; [discriminate|].
  destruct (String.eqb k k'); simpl; [reflexivity|].
  intros H. f_equal. now apply IH.
Qed.

Lemma rescale_nonzero (series : list Q) (peak m weight : Q) :
  ~ m == 0 ->
  rescale series peak m weight = Ok (map (fun s => s * peak / m * weight) series).
Proof.
  intros Hm. unfold rescale.
  destruct (Qeq_bool m 0) eqn:E; [|reflexivity].
  apply Qeq_bool_iff in E. contradiction.
Qed.

Lemma Forall2_map_right {A B} (R : A -> B -> Prop) (f : A -> B) (l : list A) :
  (forall a, R a (f a)) -> Forall2 R l (map f l).
Proof. intros H. induction l; simpl; constructor; auto. Qed.

Lemma inject_Z_nonzero (z : Z) : z <> 0%Z -> ~ inject_Z z == 0.
Proof. intros Hz H. unfold Qeq in H. simpl in H. lia. Qed.

(** C8.  On a flat table with the three loss columns, whose maxima and
    their sum are not zero, and with a number of stories that is not zero,
    the loader returns the table with each of the three columns rewritten in
    place: every sample is multiplied by
    [(max(series) / max_total) / max(series) * (1 / nstories)], that is,
    divided by [max_total] and by [nstories]. *)
Theorem legacy_columns_rescaled (self : SLF) (df : legacy)
    (ns_pfa s_idr ns_idr : list Q) (m_pfa m_s m_ns : Q) :
  dict_get "E_NS_PFA" df = Ok ns_pfa ->
  dict_get "E_S_IDR" df = Ok s_idr ->
  dict_get "E_NS_IDR" df = Ok ns_idr ->
  py_max ns_pfa = Ok m_pfa ->
  py_max s_idr = Ok m_s ->
  py_max ns_idr = Ok m_ns ->
  ~ m_pfa == 0 -> ~ m_s == 0 -> ~ m_ns == 0 ->
  ~ m_s + m_ns + m_pfa == 0 ->
  nstories self <> 0%Z ->
  let max_total := m_s + m_ns + m_pfa in
  let n := inject_Z (nstories self) in
  exists df',
    provided_slf_legacy self df = Ok df' /\
    keys df' = keys df /\
    column_rescaled df' "E_NS_PFA" ns_pfa m_pfa max_total n /\
    column_rescaled df' "E_S_IDR" s_idr m_s max_total n /\
    column_rescaled df' "E_NS_IDR" ns_idr m_ns max_total n.
Proof.
  intros Hpfa Hs Hns Mpfa Ms Mns Zpfa Zs Zns Zt Zn max_total n.
  assert (Hn : ~ n == 0) by now apply inject_Z_nonzero.
  unfold provided_slf_legacy.
  rewrite Hpfa, Hs, Hns. simpl. rewrite Ms, Mns, Mpfa. simpl.
  fold max_total. rewrite !(py_div_nonzero _ max_total Zt). simpl.
  fold n. rewrite (py_div_nonzero _ n Hn). simpl.
  rewrite (rescale_nonzero _ _ _ _ Zpfa). simpl.
  rewrite (dict_get_set_ne "E_NS_PFA" "E_NS_IDR") by reflexivity.
  rewrite Hns. simpl.
  rewrite (rescale_nonzero _ _ _ _ Zns). simpl.
  rewrite (dict_get_set_ne "E_NS_IDR" "E_S_IDR") by reflexivity.
  rewrite (dict_get_set_ne "E_NS_PFA" "E_S_IDR") by reflexivity.
  rewrite Hs. simpl.
  rewrite (rescale_nonzero _ _ _ _ Zs). simpl.
  eexists. split; [reflexivity|].
  assert (Hmap : forall series m, ~ m == 0 ->
            Forall2 (fun s s' => s' == s * (m / max_total / m * (1 / n)) /\
                                 s' == s / max_total / n)
                    series
                    (map (fun s => s * (m / max_total) / m * (1 / n)) series)).
  { intros series m Hm. apply Forall2_map_right. intros s.
    split; field; repeat split; assumption. }
  split; [|split; [|split]].
  - rewrite (keys_dict_set "E_S_IDR" _ s_idr).
    + rewrite (keys_dict_set "E_NS_IDR" _ ns_idr).
      * now rewrite (keys_dict_set "E_NS_PFA" _ ns_pfa).
      * rewrite dict_get_set_ne by reflexivity. exact Hns.
    + rewrite !dict_get_set_ne by reflexivity. exact Hs.
  - eexists. split; [|apply (Hmap ns_pfa m_pfa Zpfa)].
    rewrite !dict_get_set_ne by reflexivity. apply dict_get_set_eq.
  - eexists. split; [|apply (Hmap s_idr m_s Zs)].
    apply dict_get_set_eq.
  - eexists. split; [|apply (Hmap ns_idr m_ns Zns)].
    rewrite dict_get_set_ne by reflexivity. apply dict_get_set_eq.
Qed.

Lemma legacy_columns_rescaled_witness :
  exists df',
    provided_slf_legacy Scenario.legacy_slf Scenario.legacy_df = Ok df' /\
    keys df' = keys Scenario.legacy_df /\
    column_rescaled df' "E_NS_PFA" [2; 5] 5 (2 + 3 + 5) (inject_Z 2) /\
    column_rescaled df' "E_S_IDR" [1; 2] 2 (2 + 3 + 5) (inject_Z 2) /\
    column_rescaled df' "E_NS_IDR" [1; 3] 3 (2 + 3 + 5) (inject_Z 2).
Proof.
  apply (legacy_columns_rescaled Scenario.legacy_slf Scenario.legacy_df
           [2; 5] [1; 2] [1; 3] 5 2 3);
    try reflexivity;
    try (intros H; vm_compute in H; discriminate).
Defined.

(** ** Loops *)

Section Loops.
Context {V A : Type}.

(** An invariant of the accumulator that every pass of the body keeps
    holds of the result of the loop. *)
Lemma for_each_invariant (P : A -> Prop) (body : string -> V -> A -> result A)
    (d : dict V) (acc a : A) :
  (forall k v acc acc', P acc -> body k v acc = Ok acc' -> P acc') ->
  P acc -> for_each body d acc = Ok a -> P a.
Proof.
  intros Hbody. revert acc.
  induction d as [|[k v] d IH]; intros acc Hacc; simpl.
  - now intros [= <-].
  - destruct (body k v acc) as [acc'|] eqn:E; simpl; [|discriminate].
    apply IH. eapply Hbody; eauto.
Qed.



(** When what a pass that does not raise writes depends on the item only,
    a loop that does not raise has written every item. *)
Lemma for_items_written (h : string -> V -> V)
    (body : string -> V -> A -> result A * V) (d d' : dict V) (acc a : A) :
  (forall k v acc acc' v', body k v acc = (Ok acc', v') -> v' = h k v) ->
  for_items body d acc = (Ok a, d') ->
  d' = map (fun '(k, v) => (k, h k v)) d.
Proof.
  intros Hbody. revert acc d'.
  induction d as [|[k v] d IH]; intros acc d'; simpl.
  - now intros [= _ <-].
  - destruct (body k v acc) as [[acc'|] v'] eqn:E; [|discriminate].
    apply Hbody in E. subst v'.
    destruct (for_items body d acc') as [r rest] eqn:E'.
    intros [= -> <-]. f_equal. eapply IH. exact E'.
Qed.
End Loops.

(** ** The zero anchor *)









(** ** What the builder does to the raw table *)




Lemma nondirectional_story_writes factor i lf acc :
  snd (nondirectional_story factor i lf acc) = truncate_leaf lf.
Proof. reflexivity. Qed.

Lemma build_entry_writes factor d key e acc acc' e' :
  build_entry factor d key e acc = (Ok acc', e') ->
  e' = if is_nondirectional d then truncate_entry e else e.
Proof.
  unfold build_entry, is_nondirectional.
  destruct (String.eqb d "Non-directional").
  - destruct e as [s|[|? ?]]; [| |discriminate].
    + destruct (for_items _ s ∅) as [r s'] eqn:E.
      destruct r as [m|]; simpl; [|discriminate].
      intros [= _ <-]. f_equal.
      eapply (for_items_written (fun _ lf => truncate_leaf lf)); [|exact E].
      intros k v a a' v' Hb.
      pose proof (nondirectional_story_writes factor k v a) as Hw.
      rewrite Hb in Hw. exact Hw.
    + now intros [= _ <-].
  - destruct e as [[|? ?]|ds]; [|discriminate|].
    + now intros [= _ <-].
    + destruct (directional_group factor ds); simpl; [|discriminate].
      now intros [= _ <-].
Qed.

Lemma build_class_writes factor d g acc acc' g' :
  build_class factor d g acc = (Ok acc', g') ->
  g' = map (fun '(key, e) =>
              (key, if is_nondirectional d then truncate_entry e else e)) g.
Proof.
  unfold build_class.
  destruct (for_items _ g ∅) as [r g1] eqn:E.
  destruct r as [m|]; simpl; [|discriminate].
  intros [= _ <-].
  eapply (for_items_written
            (fun _ e => if is_nondirectional d then truncate_entry e else e));
    [|exact E].
  intros k v a a' v'. apply build_entry_writes.
Qed.

Lemma structured_functions_writes self df t df' :
  structured_functions self df = (Ok t, df') -> df' = truncated_table df.
Proof.
  unfold structured_functions.
  destruct (total_comp_cost self df) as [total|]; [|discriminate].
  destruct (normalization_factor self total) as [factor|]; [|discriminate].
  intros E. unfold truncated_table.
  eapply (for_items_written
            (fun d g => map (fun '(key, e) =>
               (key, if is_nondirectional d then truncate_entry e else e)) g));
    [|exact E].
  intros k v a a' v'. apply build_class_writes.
Qed.






(** ** Where the interpolant of a story is stored *)

Lemma for_each_ext {V A} (body1 body2 : string -> V -> A -> result A)
    (d : dict V) (acc : A) :
  (forall k v a, body1 k v a = body2 k v a) ->
  for_each body1 d acc = for_each body2 d acc.
Proof.
  intros H. revert acc. induction d as [|[k v] d IH]; intros acc; simpl.
  - reflexivity.
  - rewrite H. destruct (body2 k v acc); simpl; [apply IH|reflexivity].
Qed.

Lemma for_items_fst {V A} (body : string -> V -> A -> result A * V)
    (d : dict V) (acc : A) :
  fst (for_items body d acc) = for_each (fun k v a => fst (body k v a)) d acc.
Proof.
  revert acc. induction d as [|[k v] d IH]; intros acc; simpl.
  - reflexivity.
  - destruct (body k v acc) as [[acc'|] v']; simpl; [|reflexivity].
    rewrite <- IH. now destruct (for_items body d acc').
Qed.

Lemma for_each_app {V A} (body : string -> V -> A -> result A)
    (d1 d2 : dict V) (acc : A) :
  for_each body (d1 ++ d2) acc = a ← for_each body d1 acc; for_each body d2 a.
Proof.
  revert acc. induction d1 as [|[k v] d1 IH]; intros acc; simpl.
  - reflexivity.
  - destruct (body k v acc); simpl; [apply IH|reflexivity].
Qed.

Lemma store_story_Ok truncate factor i lf acc m :
  store_story truncate factor i lf acc = Ok m ->
  exists k, int_of_last i = Ok k /\
            m = <[k := story_function truncate factor lf]> acc.
Proof.
  unfold store_story, interp1d.
  destruct (Nat.eqb _ _); simpl; [|discriminate].
  destruct (int_of_last i) as [k|]; simpl; [|discriminate].
  intros [= <-]. exists k. split; [reflexivity|]. now destruct lf.
Qed.

(** Stories with other keys leave the key [k] alone. *)
Lemma stories_keep_key truncate factor (s : dict leaf) acc m (k : Z) :
  for_each (store_story truncate factor) s acc = Ok m ->
  no_story_at k s ->
  m !! k = acc !! k.
Proof.
  revert acc. induction s as [|[i lf] s IH]; intros acc; simpl.
  - now intros [= <-].
  - destruct (store_story truncate factor i lf acc) as [a|] eqn:E; simpl;
      [|discriminate].
    intros Hm Hs. inversion Hs as [|? ? Hi Hs']; subst.
    rewrite (IH _ Hm Hs').
    apply store_story_Ok in E as (k' & Hk' & ->).
    apply lookup_insert_ne. intros ->. contradiction.
Qed.

(** The key of an identifier holds the interpolant of the last story that
    has this key. *)
Lemma stories_last_wins truncate factor (s1 s2 : dict leaf) i lf acc m (k : Z) :
  for_each (store_story truncate factor) (s1 ++ (i, lf) :: s2) acc = Ok m ->
  int_of_last i = Ok k ->
  no_story_at k s2 ->
  m !! k = Some (story_function truncate factor lf).
Proof.
  rewrite for_each_app.
  destruct (for_each _ s1 acc) as [a1|]; simpl; [|discriminate].
  destruct (store_story truncate factor i lf a1) as [a2|] eqn:E; simpl;
    [|discriminate].
  intros Hm Hi Hs. rewrite (stories_keep_key _ _ _ _ _ _ Hm Hs).
  apply store_story_Ok in E as (k' & Hk' & ->).
  rewrite Hi in Hk'. injection Hk' as <-. apply lookup_insert_eq.
Qed.

(** Keys are never removed, and every story adds one key at most. *)
Lemma stories_keys_persist truncate factor (s : dict leaf) acc m (k : Z) :
  for_each (store_story truncate factor) s acc = Ok m ->
  is_Some (acc !! k) -> is_Some (m !! k).
Proof.
  revert acc. induction s as [|[i lf] s IH]; intros acc; simpl.
  - now intros [= <-].
  - destruct (store_story truncate factor i lf acc) as [a|] eqn:E; simpl;
      [|discriminate].
    intros Hm Hk. apply (IH _ Hm).
    apply store_story_Ok in E as (k' & _ & ->).
    apply lookup_insert_is_Some'. now right.
Qed.

Lemma stories_size truncate factor (s : dict leaf) acc m :
  for_each (store_story truncate factor) s acc = Ok m ->
  (size m <= size acc + length s)%nat.
Proof.
  revert acc. induction s as [|[i lf] s IH]; intros acc; simpl.
  - intros [= <-]. lia.
  - destruct (store_story truncate factor i lf acc) as [a|] eqn:E; simpl;
      [|discriminate].
    intros Hm. apply IH in Hm.
    apply store_story_Ok in E as (k' & _ & ->).
    rewrite map_size_insert in Hm. destruct (acc !! k'); simpl in Hm; lia.
Qed.

(** Two identifiers with one key make the group smaller than the dict it
    is built from. *)
Lemma stories_collapse truncate factor (s1 s2 s3 : dict leaf) i1 lf1 i2 lf2 m
    (k : Z) :
  for_each (store_story truncate factor)
           (s1 ++ (i1, lf1) :: s2 ++ (i2, lf2) :: s3) ∅ = Ok m ->
  int_of_last i1 = Ok k ->
  int_of_last i2 = Ok k ->
  (size m < length (s1 ++ (i1, lf1) :: s2 ++ (i2, lf2) :: s3))%nat.
Proof.
  rewrite for_each_app.
  destruct (for_each _ s1 ∅) as [a1|] eqn:E1; simpl; [|discriminate].
  destruct (store_story truncate factor i1 lf1 a1) as [a2|] eqn:E2; simpl;
    [|discriminate].
  rewrite for_each_app.
  destruct (for_each _ s2 a2) as [a3|] eqn:E3; simpl; [|discriminate].
  destruct (store_story truncate factor i2 lf2 a3) as [a4|] eqn:E4; simpl;
    [|discriminate].
  intros Hm Hi1 Hi2.
  apply stories_size in E1, Hm. pose proof (stories_size _ _ _ _ _ E3) as H3.
  rewrite map_size_empty in E1.
  apply store_story_Ok in E2 as (k1 & Hk1 & ->).
  apply store_story_Ok in E4 as (k2 & Hk2 & ->).
  rewrite Hi1 in Hk1. rewrite Hi2 in Hk2.
  injection Hk1 as <-. injection Hk2 as <-.
  assert (Hk : is_Some (a3 !! k)).
  { eapply stories_keys_persist; [exact E3|]. rewrite lookup_insert_eq. eauto. }
  rewrite map_size_insert in Hm. destruct Hk as [f Hk]. rewrite Hk in Hm.
  rewrite map_size_insert in H3.
  rewrite !length_app. simpl. rewrite !length_app. simpl.
  destruct (a1 !! k); simpl in *; lia.
Qed.

Section Keyed.
Context {V B : Type} (compute : string -> V -> result B).

Let body (k : string) (v : V) (acc : gmap string B) : result (gmap string B) :=
  r ← compute k v; Ok (<[k := r]> acc).

Lemma keyed_keep (d : dict V) (acc m : gmap string B) (k : string) :
  for_each body d acc = Ok m ->
  existsb (String.eqb k) (keys d) = false ->
  m !! k = acc !! k.
Proof.
  revert acc. induction d as [|[k' v] d IH]; intros acc; simpl.
  - now intros [= <-].
  - destruct (body k' v acc) as [a|] eqn:E; simpl; [|discriminate].
    unfold body in E. destruct (compute k' v) as [r|]; simpl in E; [|discriminate].
    injection E as <-.
    intros Hm [Hk Hd]%orb_false_iff. rewrite (IH _ Hm Hd).
    apply lookup_insert_ne. intros ->. now rewrite String.eqb_refl in Hk.
Qed.

Lemma keyed_lookup (d : dict V) (acc m : gmap string B) (k : string) (v : V) :
  for_each body d acc = Ok m ->
  distinct (keys d) = true ->
  In (k, v) d ->
  exists r, compute k v = Ok r /\ m !! k = Some r.
Proof.
  revert acc. induction d as [|[k' v'] d IH]; intros acc; simpl; [tauto|].
  destruct (body k' v' acc) as [a|] eqn:Ea; simpl; [|discriminate].
  unfold body in Ea. destruct (compute k' v') as [r|] eqn:E; simpl in Ea;
    [|discriminate].
  injection Ea as <-.
  intros Hm [Hk Hd]%andb_true_iff [[= -> ->]|Hin].
  - exists r. split; [exact E|].
    rewrite (keyed_keep _ _ _ _ Hm) by now apply negb_true_iff.
    apply lookup_insert_eq.
  - eapply IH; eauto.
Qed.
End Keyed.

Lemma build_entry_fst factor d key e acc :
  fst (build_entry factor d key e acc)
  = o ← entry_functions factor d e; Ok (<[key := o]> acc).
Proof.
  unfold build_entry, entry_functions.
  destruct (String.eqb d "Non-directional").
  - destruct e as [s|[|? ?]]; try reflexivity.
    pose proof (for_items_fst (nondirectional_story factor) s
                  (∅ : gmap Z interpolant)) as H.
    change (for_each _ s ∅) with (for_each (store_story true factor) s ∅) in H.
    rewrite <- H. destruct (for_items _ s ∅) as [[m|] s']; reflexivity.
  - destruct e as [[|? ?]|ds]; try reflexivity.
    simpl. unfold directional_group.
    change (directional_story factor) with (store_story false factor).
    destruct (for_each _ ds ∅); reflexivity.
Qed.

Lemma build_class_fst factor d g acc :
  fst (build_class factor d g acc)
  = m ← class_functions factor d g; Ok (<[d := m]> acc).
Proof.
  unfold build_class, class_functions.
  rewrite <- (for_each_ext (fun key e a => fst (build_entry factor d key e a)))
    by (intros; apply build_entry_fst).
  rewrite <- for_items_fst. destruct (for_items _ g ∅) as [[m|] g']; reflexivity.
Qed.

Lemma table_class factor (df df' : structured) t d g :
  for_items (build_class factor) df ∅ = (Ok t, df') ->
  distinct (keys df) = true ->
  In (d, g) df ->
  exists m, class_functions factor d g = Ok m /\ t !! d = Some m.
Proof.
  intros E Hd Hin.
  pose proof (for_items_fst (build_class factor) df ∅) as H.
  rewrite E in H. simpl in H. symmetry in H.
  rewrite (for_each_ext _ (fun d g acc =>
             m ← class_functions factor d g; Ok (<[d := m]> acc))) in H
    by (intros; apply build_class_fst).
  exact (keyed_lookup (class_functions factor) df ∅ t d g H Hd Hin).
Qed.

Lemma class_entry factor d (g : dict entry) m key e :
  class_functions factor d g = Ok m ->
  distinct (keys g) = true ->
  In (key, e) g ->
  exists o, entry_functions factor d e = Ok o /\ m !! key = Some o.
Proof.
  intros H Hd Hin.
  exact (keyed_lookup (fun _ e => entry_functions factor d e) g ∅ m key e H Hd Hin).
Qed.

Lemma distinct_keys_class df d g :
  distinct_keys df = true -> In (d, g) df ->
  distinct (keys df) = true /\ distinct (keys g) = true /\
  forall key e, In (key, e) g -> entry_distinct e = true.
Proof.
  unfold distinct_keys. intros [H1 H2]%andb_true_iff Hin.
  rewrite forallb_forall in H2. specialize (H2 _ Hin). simpl in H2.
  apply andb_true_iff in H2 as [H2 H3]. rewrite forallb_forall in H3.
  repeat split; try assumption. intros key e He. exact (H3 _ He).
Qed.

Lemma structured_functions_factor self df t df' :
  structured_functions self df = (Ok t, df') ->
  exists total factor,
    total_comp_cost self df = Ok total /\
    normalization_factor self total = Ok factor /\
    for_items (build_class factor) df ∅ = (Ok t, df').
Proof.
  unfold structured_functions.
  destruct (total_comp_cost self df) as [total|]; [|discriminate].
  destruct (normalization_factor self total) as [factor|] eqn:E; [|discriminate].
  intros H. exists total, factor. auto.
Qed.

(** The group stored for the stories of a non-directional entry, and for the
    stories of one direction of a directional entry. *)
Lemma nondirectional_group_stored factor (df df' : structured) t d g key s :
  for_items (build_class factor) df ∅ = (Ok t, df') ->
  distinct_keys df = true ->
  In (d, g) df -> is_nondirectional d = true -> In (key, Stories s) g ->
  exists cm m,
    t !! d = Some cm /\ cm !! key = Some (OutStories m) /\
    for_each (store_story true factor) s ∅ = Ok m.
Proof.
  intros E Hk Hd Hnd He.
  destruct (distinct_keys_class _ _ _ Hk Hd) as (K1 & K2 & _).
  destruct (table_class _ _ _ _ _ _ E K1 Hd) as (cm & Hcm & Ht).
  destruct (class_entry _ _ _ _ _ _ Hcm K2 He) as (o & Ho & Hkey).
  unfold entry_functions in Ho. unfold is_nondirectional in Hnd. rewrite Hnd in Ho.
  destruct (for_each (store_story true factor) s ∅) as [m|] eqn:Hm; simpl in Ho;
    [|discriminate].
  injection Ho as <-. exists cm, m. auto.
Qed.

Lemma directional_group_stored factor (df df' : structured) t d g key ds x s :
  for_items (build_class factor) df ∅ = (Ok t, df') ->
  distinct_keys df = true ->
  In (d, g) df -> is_nondirectional d = false -> In (key, Directions ds) g ->
  In (x, s) ds ->
  exists cm dm m,
    t !! d = Some cm /\ cm !! key = Some (OutDirections dm) /\
    dm !! x = Some m /\
    for_each (store_story false factor) s ∅ = Ok m.
Proof.
  intros E Hk Hd Hnd He Hx.
  destruct (distinct_keys_class _ _ _ Hk Hd) as (K1 & K2 & K3).
  specialize (K3 _ _ He). simpl in K3.
  destruct (table_class _ _ _ _ _ _ E K1 Hd) as (cm & Hcm & Ht).
  destruct (class_entry _ _ _ _ _ _ Hcm K2 He) as (o & Ho & Hkey).
  unfold entry_functions in Ho. unfold is_nondirectional in Hnd. rewrite Hnd in Ho.
  destruct (for_each _ ds ∅) as [dm|] eqn:Hdm; simpl in Ho; [|discriminate].
  injection Ho as <-.
  destruct (keyed_lookup (fun _ s => for_each (store_story false factor) s ∅)
              ds ∅ dm x s Hdm K3 Hx) as (m & Hm & Hlook).
  exists cm, dm, m. auto.
Qed.

Example int_of_last_story3 : int_of_last "story3" = Ok 3%Z.
Proof. reflexivity. Qed.

(** C9, as stated, fails: with ["story3"] and ["floor3"] in one group, the
    key 3 holds the interpolant of ["floor3"], and the entry of ["story3"]
    cannot be retrieved. *)
Lemma identifier_roundtrip_fails :
  ~ identifier_roundtrip Scenario.plain_slf Scenario.collided_df.
Proof.
  intros H.
  assert (E : structured_functions Scenario.plain_slf Scenario.collided_df
              = (Ok Scenario.collided_table, Scenario.collided_df))
    by (vm_compute; reflexivity).
  destruct (H _ _ (0 + 200 + 200 + 200) 1 E eq_refl eq_refl) as [H1 _].
  specialize (H1 "Non-directional" _ "PFA_NS" _ "story3" Scenario.story 3%Z
                 (or_introl eq_refl) eq_refl (or_introl eq_refl)
                 (or_introl eq_refl) eq_refl).
  vm_compute in H1. discriminate.
Qed.

(** C9, amended.  On a table that the builder completes, an entry whose
    identifier ends in a decimal digit, and after which no identifier of its
    group ends in the same digit, is stored under the integer of that digit,
    below the same class, the same demand-parameter key and, in a
    directional class, the same direction: the table holds there the
    interpolant built from this entry. *)
Theorem identifier_stored_under_last_digit
    (self : SLF) (df df' : structured) (t : gmap string (gmap string out_entry))
    (total factor : Q) :
  structured_functions self df = (Ok t, df') ->
  total_comp_cost self df = Ok total ->
  normalization_factor self total = Ok factor ->
  distinct_keys df = true ->
  (forall d g key s1 i lf s2 k,
      In (d, g) df -> is_nondirectional d = true ->
      In (key, Stories (s1 ++ (i, lf) :: s2)) g ->
      int_of_last i = Ok k -> no_story_at k s2 ->
      out_story t d key k = Some (story_function true factor lf)) /\
  (forall d g key ds x s1 i lf s2 k,
      In (d, g) df -> is_nondirectional d = false ->
      In (key, Directions ds) g -> In (x, s1 ++ (i, lf) :: s2) ds ->
      int_of_last i = Ok k -> no_story_at k s2 ->
      out_direction_story t d key x k = Some (story_function false factor lf)).
Proof.
  intros E Ht Hf Hk.
  apply structured_functions_factor in E as (total' & factor' & Ht' & Hf' & E).
  rewrite Ht in Ht'. injection Ht' as <-.
  rewrite Hf in Hf'. injection Hf' as <-.
  split.
  - intros d g key s1 i lf s2 k Hd Hnd He Hi Hs.
    destruct (nondirectional_group_stored _ _ _ _ _ _ _ _ E Hk Hd Hnd He)
      as (cm & m & Hcm & Hm & Hg).
    unfold out_story. rewrite Hcm. simpl. rewrite Hm. simpl.
    eapply stories_last_wins; eauto.
  - intros d g key ds x s1 i lf s2 k Hd Hnd He Hx Hi Hs.
    destruct (directional_group_stored _ _ _ _ _ _ _ _ _ _ E Hk Hd Hnd He Hx)
      as (cm & dm & m & Hcm & Hdm & Hm & Hg).
    unfold out_direction_story. rewrite Hcm. simpl. rewrite Hdm. simpl.
    rewrite Hm. simpl. eapply stories_last_wins; eauto.
Qed.

Lemma identifier_stored_under_last_digit_witness :
  out_story Scenario.collided_table "Non-directional" "PFA_NS" 3
  = Some (story_function true 1 Scenario.zero_story) /\
  out_direction_story Scenario.collided_table "Directional" "IDR_NS" "dir2" 2
  = Some (story_function false 1 Scenario.story).
Proof.
  assert (E : structured_functions Scenario.plain_slf Scenario.collided_df
              = (Ok Scenario.collided_table, Scenario.collided_df))
    by (vm_compute; reflexivity).
  assert (Hk : distinct_keys Scenario.collided_df = true) by reflexivity.
  destruct (identifier_stored_under_last_digit Scenario.plain_slf
              Scenario.collided_df Scenario.collided_df Scenario.collided_table
              (0 + 200 + 200 + 200) 1 E eq_refl eq_refl Hk) as [H1 H2].
  split.
  - apply (H1 "Non-directional" _ "PFA_NS" [("story3", Scenario.story)]
              "floor3" Scenario.zero_story [] 3%Z
              (or_introl eq_refl) eq_refl (or_introl eq_refl) eq_refl).
    constructor.
  - apply (H2 "Directional" _ "IDR_NS" _ "dir2" []
              "story2" Scenario.story [] 2%Z
              (or_intror (or_introl eq_refl)) eq_refl (or_introl eq_refl)
              (or_intror (or_introl eq_refl)) eq_refl).
    constructor.
Defined.

(** C10.  On a table that the builder completes, two identifiers of one
    group that end in the same character have the same integer key; when no
    later identifier of the group has that key, the key holds the
    interpolant of the later of the two, and the group of the returned table
    has fewer leaves than the group of the raw table. *)
Theorem same_last_character_collapses
    (self : SLF) (df df' : structured) (t : gmap string (gmap string out_entry))
    (total factor : Q) :
  structured_functions self df = (Ok t, df') ->
  total_comp_cost self df = Ok total ->
  normalization_factor self total = Ok factor ->
  distinct_keys df = true ->
  (forall d g key s1 i1 lf1 s2 i2 lf2 s3 k,
      In (d, g) df -> is_nondirectional d = true ->
      In (key, Stories (s1 ++ (i1, lf1) :: s2 ++ (i2, lf2) :: s3)) g ->
      int_of_last i1 = Ok k -> int_of_last i2 = Ok k -> no_story_at k s3 ->
      exists cm m,
        t !! d = Some cm /\ cm !! key = Some (OutStories m) /\
        m !! k = Some (story_function true factor lf2) /\
        (size m < length (s1 ++ (i1, lf1) :: s2 ++ (i2, lf2) :: s3))%nat) /\
  (forall d g key ds x s1 i1 lf1 s2 i2 lf2 s3 k,
      In (d, g) df -> is_nondirectional d = false ->
      In (key, Directions ds) g ->
      In (x, s1 ++ (i1, lf1) :: s2 ++ (i2, lf2) :: s3) ds ->
      int_of_last i1 = Ok k -> int_of_last i2 = Ok k -> no_story_at k s3 ->
      exists cm dm m,
        t !! d = Some cm /\ cm !! key = Some (OutDirections dm) /\
        dm !! x = Some m /\
        m !! k = Some (story_function false factor lf2) /\
        (size m < length (s1 ++ (i1, lf1) :: s2 ++ (i2, lf2) :: s3))%nat).
Proof.
  intros E Ht Hf Hk.
  apply structured_functions_factor in E as (total' & factor' & Ht' & Hf' & E).
  rewrite Ht in Ht'. injection Ht' as <-.
  rewrite Hf in Hf'. injection Hf' as <-.
  split.
  - intros d g key s1 i1 lf1 s2 i2 lf2 s3 k Hd Hnd He Hi1 Hi2 Hs.
    destruct (nondirectional_group_stored _ _ _ _ _ _ _ _ E Hk Hd Hnd He)
      as (cm & m & Hcm & Hm & Hg).
    exists cm, m. repeat split; try assumption.
    + rewrite app_comm_cons, app_assoc in Hg.
      eapply stories_last_wins; eauto.
    + eapply stories_collapse; eauto.
  - intros d g key ds x s1 i1 lf1 s2 i2 lf2 s3 k Hd Hnd He Hx Hi1 Hi2 Hs.
    destruct (directional_group_stored _ _ _ _ _ _ _ _ _ _ E Hk Hd Hnd He Hx)
      as (cm & dm & m & Hcm & Hdm & Hm & Hg).
    exists cm, dm, m. repeat split; try assumption.
    + rewrite app_comm_cons, app_assoc in Hg.
      eapply stories_last_wins; eauto.
    + eapply stories_collapse; eauto.
Qed.

Lemma same_last_character_collapses_witness :
  exists cm dm m,
    Scenario.collided_table !! "Directional" = Some cm /\
    cm !! "IDR_NS" = Some (OutDirections dm) /\
    dm !! "dir1" = Some m /\
    m !! 2%Z = Some (story_function false 1 Scenario.zero_story) /\
    (size m < 2)%nat.
Proof.
  assert (E : structured_functions Scenario.plain_slf Scenario.collided_df
              = (Ok Scenario.collided_table, Scenario.collided_df))
    by (vm_compute; reflexivity).
  assert (Hk : distinct_keys Scenario.collided_df = true) by reflexivity.
  destruct (same_last_character_collapses Scenario.plain_slf
              Scenario.collided_df Scenario.collided_df Scenario.collided_table
              (0 + 200 + 200 + 200) 1 E eq_refl eq_refl Hk) as [_ H2].
  apply (H2 "Directional" _ "IDR_NS" _ "dir1" []
            "story2" Scenario.story [] "story12" Scenario.zero_story [] 2%Z
            (or_intror (or_introl eq_refl)) eq_refl (or_introl eq_refl)
            (or_introl eq_refl) eq_refl eq_refl).
  constructor.
Defined.

(** ** The tables that the builder completes *)

Lemma for_each_completes {V A} (body : string -> V -> A -> result A)
    (d : dict V) (acc : A) :
  (forall k v a, In (k, v) d -> exists a', body k v a = Ok a') ->
  exists a', for_each body d acc = Ok a'.
Proof.
  revert acc. induction d as [|[k v] d IH]; intros acc H; simpl.
  - eauto.
  - destruct (H k v acc (or_introl eq_refl)) as [a ->]. simpl.
    apply IH. intros k' v' a' Hin. apply H. now right.
Qed.

Lemma store_story_completes truncate factor i lf acc :
  story_ok (i, lf) = true ->
  exists m, store_story truncate factor i lf acc = Ok m.
Proof.
  unfold story_ok, store_story, interp1d.
  intros [Hl Hi]%andb_true_iff.
  apply Nat.eqb_eq in Hl.
  destruct (int_of_last i) as [k|]; [|discriminate].
  assert (Hlen : length (xs (story_function truncate factor lf))
                 = length (ys (story_function truncate factor lf))).
  { simpl. unfold np_scale, truncate_negative.
    destruct truncate; rewrite ?length_map; now rewrite Hl. }
  apply Nat.eqb_eq in Hlen. rewrite Hlen. simpl. eauto.
Qed.

Lemma stories_complete truncate factor (s : dict leaf) acc :
  forallb story_ok s = true ->
  exists m, for_each (store_story truncate factor) s acc = Ok m.
Proof.
  intros H. apply for_each_completes. intros i lf a Hin.
  apply store_story_completes. rewrite forallb_forall in H. exact (H _ Hin).
Qed.

Lemma entry_functions_complete factor d e :
  entry_well_shaped d e = true -> exists o, entry_functions factor d e = Ok o.
Proof.
  unfold entry_well_shaped, entry_functions, is_nondirectional.
  destruct (String.eqb d "Non-directional").
  - destruct e as [s|[|? ?]]; [|eauto|discriminate].
    intros H. destruct (stories_complete true factor s ∅ H) as [m ->].
    simpl. eauto.
  - destruct e as [[|? ?]|ds]; [eauto|discriminate|].
    intros H.
    destruct (for_each_completes
                (fun x s (acc : gmap string (gmap Z interpolant)) =>
                   m ← for_each (store_story false factor) s ∅;
                   Ok (<[x := m]> acc)) ds ∅) as [dm Hdm].
    + intros x s a Hin. rewrite forallb_forall in H. specialize (H _ Hin).
      destruct (stories_complete false factor s ∅ H) as [m ->]. simpl. eauto.
    + rewrite Hdm. simpl. eauto.
Qed.

Lemma class_functions_complete factor d (g : dict entry) :
  forallb (fun '(_, e) => entry_well_shaped d e) g = true ->
  exists m, class_functions factor d g = Ok m.
Proof.
  intros H. apply for_each_completes. intros key e a Hin.
  rewrite forallb_forall in H. specialize (H _ Hin).
  destruct (entry_functions_complete factor d e H) as [o ->]. simpl. eauto.
Qed.

(** Once the total and the factor are there, the builder completes on every
    well-shaped table, and leaves the raw table truncated. *)
Lemma structured_functions_complete (self : SLF) (df : structured) (total factor : Q) :
  total_comp_cost self df = Ok total ->
  normalization_factor self total = Ok factor ->
  well_shaped df = true ->
  exists t, structured_functions self df = (Ok t, truncated_table df).
Proof.
  intros Ht Hf Hw.
  assert (H : exists t, fst (for_items (build_class factor) df ∅) = Ok t).
  { rewrite for_items_fst.
    rewrite (for_each_ext _ (fun d g acc =>
               m ← class_functions factor d g; Ok (<[d := m]> acc)))
      by (intros; apply build_class_fst).
    apply for_each_completes. intros d g a Hin.
    unfold well_shaped in Hw. rewrite forallb_forall in Hw. specialize (Hw _ Hin).
    destruct (class_functions_complete factor d g Hw) as [m ->]. simpl. eauto. }
  destruct H as [t H]. exists t.
  assert (E : structured_functions self df = for_items (build_class factor) df ∅).
  { unfold structured_functions. now rewrite Ht, Hf. }
  destruct (for_items (build_class factor) df ∅) as [r df'] eqn:E'.
  simpl in H. subst r. rewrite E.
  f_equal. apply (structured_functions_writes self df t). now rewrite E.
Qed.

Example scenario_completes :
  exists t, structured_functions Scenario.slf Scenario.df
            = (Ok t, truncated_table Scenario.df).
Proof.
  apply (structured_functions_complete Scenario.slf Scenario.df 400 (1000 / 400));
    reflexivity.
Qed.

(** * Further properties of the builder of the nested table *)

(** ** The key of an identifier *)




Lemma int_of_last_range (i : string) (k : Z) :
  int_of_last i = Ok k -> (0 <= k <= 9)%Z.
Proof.
  unfold int_of_last. destruct (last_char i) as [c|]; [|discriminate].
  destruct ((48 <=? Ascii.nat_of_ascii c)%nat && (Ascii.nat_of_ascii c <=? 57)%nat)
    eqn:E; [|discriminate].
  intros [= <-]. apply andb_true_iff in E as [E1 E2].
  apply Nat.leb_le in E1, E2. lia.
Qed.

(** ** Invariants of the groups of the returned table *)

Section Groups.
Context {V B : Type} (compute : string -> V -> result B) (P : B -> Prop).

(** A loop that stores what it computes keeps a property of all values. *)
Lemma keyed_all (d : dict V) (acc m : gmap string B) :
  for_each (fun k v acc => r ← compute k v; Ok (<[k := r]> acc)) d acc = Ok m ->
  (forall k v r, compute k v = Ok r -> P r) ->
  map_Forall (fun _ r => P r) acc ->
  map_Forall (fun _ r => P r) m.
Proof.
  intros E Hc Hacc.
  eapply (for_each_invariant (map_Forall (fun _ r => P r))); [|exact Hacc|exact E].
  intros k v a a' Ha. cbv beta.
  destruct (compute k v) as [r|] eqn:Er; simpl; [|discriminate].
  intros [= <-]. apply map_Forall_insert_2; [|exact Ha]. eapply Hc; eauto.
Qed.
End Groups.

Lemma entry_functions_groups (G : bool -> gmap Z interpolant -> Prop) factor d e o :
  (forall tr, G tr ∅) ->
  (forall tr i lf acc m,
      G tr acc -> store_story tr factor i lf acc = Ok m -> G tr m) ->
  entry_functions factor d e = Ok o ->
  entry_groups G o.
Proof.
  intros G0 Gs. unfold entry_functions.
  destruct (String.eqb d "Non-directional").
  - destruct e as [s|[|? ?]]; [| |discriminate].
    + destruct (for_each _ s ∅) as [m|] eqn:E; simpl; [|discriminate].
      intros [= <-]. simpl.
      eapply (for_each_invariant (G true)); [|apply G0|exact E].
      intros k v a a'. apply Gs.
    + intros [= <-]. apply G0.
  - destruct e as [[|? ?]|ds]; [|discriminate|].
    + intros [= <-]. simpl. apply map_Forall_empty.
    + destruct (for_each _ ds ∅) as [dm|] eqn:E; simpl; [|discriminate].
      intros [= <-]. simpl.
      eapply (keyed_all (fun _ s => for_each (store_story false factor) s ∅)
                (G false)); [exact E| |apply map_Forall_empty].
      intros x s m Hm.
      eapply (for_each_invariant (G false)); [|apply G0|exact Hm].
      intros k v a a'. apply Gs.
Qed.

(** What every pass over a story keeps, and the empty group has, holds of
    every group of the table that the builder returns. *)
Lemma table_groups_invariant (G : bool -> gmap Z interpolant -> Prop) factor
    (df df' : structured) t :
  (forall tr, G tr ∅) ->
  (forall tr i lf acc m,
      G tr acc -> store_story tr factor i lf acc = Ok m -> G tr m) ->
  for_items (build_class factor) df ∅ = (Ok t, df') ->
  table_groups G t.
Proof.
  intros G0 Gs E.
  pose proof (for_items_fst (build_class factor) df ∅) as H.
  rewrite E in H. simpl in H. symmetry in H.
  rewrite (for_each_ext _ (fun d g acc =>
             m ← class_functions factor d g; Ok (<[d := m]> acc))) in H
    by (intros; apply build_class_fst).
  eapply (keyed_all (class_functions factor)
            (fun cm => map_Forall (fun _ e => entry_groups G e) cm));
    [exact H| |apply map_Forall_empty].
  intros d g cm Hcm.
  eapply (keyed_all (fun _ e => entry_functions factor d e) (entry_groups G));
    [exact Hcm| |apply map_Forall_empty].
  intros key e o Ho. eapply entry_functions_groups; eauto.
Qed.

Lemma digit_keys_size (m : gmap Z interpolant) : digit_keys m -> (size m <= 10)%nat.
Proof.
  intros H.
  assert (Hsub : dom m ⊆ (list_to_set (seqZ 0 10) : gset Z)).
  { intros k Hk. apply elem_of_dom in Hk as [f Hf].
    apply elem_of_list_to_set, elem_of_seqZ. specialize (H k f Hf). simpl in H. lia. }
  apply subseteq_size in Hsub. rewrite size_dom in Hsub.
  rewrite size_list_to_set in Hsub by apply NoDup_seqZ.
  now rewrite length_seqZ in Hsub.
Qed.

(** X2.  In a table that the builder returns, the keys of every group of
    stories are among the integers 0 to 9, so that no group holds more than
    ten interpolants, however many stories the raw table has. *)
Theorem groups_hold_at_most_ten (self : SLF) (df df' : structured)
    (t : gmap string (gmap string out_entry)) :
  structured_functions self df = (Ok t, df') ->
  forall d cm key e, t !! d = Some cm -> cm !! key = Some e ->
    match e with
    | OutStories m => digit_keys m /\ (size m <= 10)%nat
    | OutDirections dm =>
        forall x m, dm !! x = Some m -> digit_keys m /\ (size m <= 10)%nat
    end.
Proof.
  intros E d cm key e Hd Hkey.
  apply structured_functions_factor in E as (total & factor & _ & _ & E).
  assert (Ht : table_groups (fun _ => digit_keys) t).
  { eapply table_groups_invariant; [| |exact E].
    - intros _. apply map_Forall_empty.
    - intros tr i lf acc m Hacc Hm.
      apply store_story_Ok in Hm as (k & Hk & ->).
      apply map_Forall_insert_2; [|exact Hacc].
      eapply int_of_last_range. exact Hk. }
  specialize (Ht d cm Hd key e Hkey). destruct e as [m|dm]; simpl in Ht.
  - split; [exact Ht|now apply digit_keys_size].
  - intros x m Hx. specialize (Ht x m Hx). simpl in Ht.
    split; [exact Ht|now apply digit_keys_size].
Qed.

Lemma groups_hold_at_most_ten_witness :
  exists cm m,
    Scenario.collided_table !! "Non-directional" = Some cm /\
    cm !! "PFA_NS" = Some (OutStories m) /\
    digit_keys m /\ (size m <= 10)%nat.
Proof.
  assert (E : structured_functions Scenario.plain_slf Scenario.collided_df
              = (Ok Scenario.collided_table, Scenario.collided_df))
    by (vm_compute; reflexivity).
  assert (Hd : exists cm, Scenario.collided_table !! "Non-directional" = Some cm)
    by (eexists; vm_compute; reflexivity).
  destruct Hd as [cm Hd].
  assert (Hkey : exists m, cm !! "PFA_NS" = Some (OutStories m)).
  { vm_compute in Hd. injection Hd as <-. eexists. vm_compute. reflexivity. }
  destruct Hkey as [m Hkey].
  exists cm, m. split; [exact Hd|]. split; [exact Hkey|].
  exact (groups_hold_at_most_ten _ _ _ _ E _ _ _ _ Hd Hkey).
Defined.

(** ** Non-directional losses *)

Lemma truncate_negative_nonneg (l : list Q) :
  Forall (fun v => 0 <= v) (truncate_negative l).
Proof.
  induction l as [|v l IH]; simpl; constructor; [|exact IH].
  unfold Qltb. destruct (Qle_bool 0 v) eqn:E; simpl.
  - now apply Qle_bool_iff.
  - apply Qle_refl.
Qed.

Lemma np_scale_nonneg (l : list Q) (factor : Q) :
  0 <= factor -> Forall (fun v => 0 <= v) l ->
  Forall (fun v => 0 <= v) (np_scale l factor).
Proof.
  intros Hf H. induction H as [|v l Hv Hl IH]; simpl; constructor; [|exact IH].
  now apply Qmult_le_0_compat.
Qed.

(** X3.  With a factor that is not negative (it is 1 without [normalize]),
    no interpolant of a non-directional entry of the returned table holds a
    negative loss, whatever the raw samples are. *)
Theorem nondirectional_losses_not_negative (self : SLF) (df df' : structured)
    (t : gmap string (gmap string out_entry)) (total factor : Q) :
  structured_functions self df = (Ok t, df') ->
  total_comp_cost self df = Ok total ->
  normalization_factor self total = Ok factor ->
  0 <= factor ->
  forall d cm key m k f,
    t !! d = Some cm -> cm !! key = Some (OutStories m) -> m !! k = Some f ->
    nonnegative_function f.
Proof.
  intros E Ht Hf Hpos d cm key m k f Hd Hkey Hk.
  apply structured_functions_factor in E as (total' & factor' & Ht' & Hf' & E).
  rewrite Ht in Ht'. injection Ht' as <-.
  rewrite Hf in Hf'. injection Hf' as <-.
  assert (H : table_groups
                (fun tr m => if tr then map_Forall (fun _ f => nonnegative_function f) m
                             else True) t).
  { eapply table_groups_invariant; [| |exact E].
    - intros [|]; [apply map_Forall_empty|exact I].
    - intros [|] i lf acc m0 Hacc Hm; [|exact I].
      apply store_story_Ok in Hm as (k0 & _ & ->).
      apply map_Forall_insert_2; [|exact Hacc].
      unfold nonnegative_function.
      apply (np_scale_nonneg (0 :: truncate_negative (loss lf)) factor);
        [exact Hpos|].
      constructor; [apply Qle_refl|apply truncate_negative_nonneg]. }
  specialize (H d cm Hd key _ Hkey). simpl in H. exact (H k f Hk).
Qed.

Lemma nondirectional_losses_not_negative_witness :
  exists cm m f,
    Scenario.collided_table !! "Non-directional" = Some cm /\
    cm !! "PFA_NS" = Some (OutStories m) /\
    m !! 3%Z = Some f /\
    nonnegative_function f.
Proof.
  assert (Hd : exists cm, Scenario.collided_table !! "Non-directional" = Some cm)
    by (eexists; vm_compute; reflexivity).
  destruct Hd as [cm Hd].
  assert (Hkey : exists m, cm !! "PFA_NS" = Some (OutStories m)).
  { vm_compute in Hd. injection Hd as <-. eexists. vm_compute. reflexivity. }
  destruct Hkey as [m Hkey].
  assert (Hk : exists f, m !! 3%Z = Some f).
  { vm_compute in Hd. injection Hd as <-.
    vm_compute in Hkey. injection Hkey as <-. eexists. vm_compute. reflexivity. }
  destruct Hk as [f Hk].
  exists cm, m, f. repeat split; try assumption.
  apply (nondirectional_losses_not_negative Scenario.plain_slf
           Scenario.collided_df Scenario.collided_df Scenario.collided_table
           (0 + 200 + 200 + 200) 1) with (d := "Non-directional") (cm := cm)
           (key := "PFA_NS") (m := m) (k := 3%Z); try assumption.
  - vm_compute. reflexivity.
  - reflexivity.
  - reflexivity.
  - discriminate.
Defined.

(** ** The shape of the returned table *)

Lemma keyed_dom {V B} (compute : string -> V -> result B) (d : dict V)
    (acc m : gmap string B) :
  for_each (fun k v acc => r ← compute k v; Ok (<[k := r]> acc)) d acc = Ok m ->
  dom m = dom acc ∪ key_set d.
Proof.
  unfold key_set. revert acc. induction d as [|[k v] d IH]; intros acc; simpl.
  - intros [= <-]. now rewrite (right_id_L ∅ (∪)).
  - destruct (compute k v) as [r|]; simpl; [|discriminate].
    intros H. rewrite (IH _ H), dom_insert_L.
    rewrite (comm_L (∪) {[k]} (dom acc)). now rewrite (assoc_L (∪)).
Qed.

(** X4.  The returned table has the shape of the raw one: its classes are
    the classes of the raw table, the keys below a class are the
    demand-parameter keys of that class, and a directional entry holds a
    group for every direction that the raw entry has, whether [flag3d] is
    set or not. *)
Theorem returned_table_mirrors_raw (self : SLF) (df df' : structured)
    (t : gmap string (gmap string out_entry)) :
  structured_functions self df = (Ok t, df') ->
  dom t = key_set df /\
  (distinct_keys df = true ->
   forall d g, In (d, g) df ->
     exists cm,
       t !! d = Some cm /\ dom cm = key_set g /\
       forall key ds,
         is_nondirectional d = false -> In (key, Directions ds) g ->
         exists dm, cm !! key = Some (OutDirections dm) /\ dom dm = key_set ds).
Proof.
  intros E.
  apply structured_functions_factor in E as (total & factor & _ & _ & E).
  split.
  - pose proof (for_items_fst (build_class factor) df ∅) as H.
    rewrite E in H. simpl in H. symmetry in H.
    rewrite (for_each_ext _ (fun d g acc =>
               m ← class_functions factor d g; Ok (<[d := m]> acc))) in H
      by (intros; apply build_class_fst).
    rewrite (keyed_dom _ _ _ _ H), dom_empty_L. apply (left_id_L ∅ (∪)).
  - intros Hk d g Hd.
    destruct (distinct_keys_class _ _ _ Hk Hd) as (K1 & K2 & K3).
    destruct (table_class _ _ _ _ _ _ E K1 Hd) as (cm & Hcm & Ht).
    exists cm. split; [exact Ht|]. split.
    + unfold class_functions in Hcm.
      rewrite (keyed_dom _ _ _ _ Hcm), dom_empty_L. apply (left_id_L ∅ (∪)).
    + intros key ds Hnd He.
      destruct (class_entry _ _ _ _ _ _ Hcm K2 He) as (o & Ho & Hkey).
      unfold entry_functions in Ho. unfold is_nondirectional in Hnd.
      rewrite Hnd in Ho.
      destruct (for_each _ ds ∅) as [dm|] eqn:Hdm; simpl in Ho; [|discriminate].
      injection Ho as <-. exists dm. split; [exact Hkey|].
      rewrite (keyed_dom _ _ _ _ Hdm), dom_empty_L. apply (left_id_L ∅ (∪)).
Qed.

Lemma returned_table_mirrors_raw_witness :
  dom Scenario.collided_table = key_set Scenario.collided_df.
Proof.
  apply (returned_table_mirrors_raw Scenario.plain_slf Scenario.collided_df
           Scenario.collided_df Scenario.collided_table).
  vm_compute. reflexivity.
Defined.

(** ** When the aggregation and the builder complete *)

Lemma for_each_Ok_each {V A} (body : string -> V -> A -> result A)
    (d : dict V) (acc a : A) :
  for_each body d acc = Ok a ->
  forall k v, In (k, v) d -> exists a1 a2, body k v a1 = Ok a2.
Proof.
  revert acc. induction d as [|[k v] d IH]; intros acc; simpl; [tauto|].
  destruct (body k v acc) as [a'|] eqn:E; simpl; [|discriminate].
  intros H k0 v0 [[= <- <-]|Hin]; [eauto|]. eapply IH; eauto.
Qed.

Lemma add_peaks_Ok (s : dict leaf) (acc t : Q) :
  add_peaks s acc = Ok t -> peaks_defined s = true.
Proof.
  revert acc. induction s as [|[i lf] s IH]; intros acc; unfold add_peaks; simpl.
  - reflexivity.
  - destruct (loss lf) as [|v l] eqn:Hl; simpl; [discriminate|].
    apply IH.
Qed.

Lemma add_entry_cost_Ok (self : SLF) (d : string) (e : entry) (acc t : Q) :
  add_entry_cost self d e acc = Ok t -> entry_aggregable self d e = true.
Proof.
  unfold add_entry_cost, entry_aggregable, is_nondirectional.
  destruct (String.eqb d "Non-directional").
  - destruct (as_stories e) as [s|]; simpl; [|discriminate].
    apply add_peaks_Ok.
  - destruct (as_directions e) as [ds|]; simpl; [|discriminate].
    unfold directions. destruct (flag3d self); simpl.
    + destruct (dict_get "dir1" ds) as [s1|]; simpl; [|discriminate].
      destruct (add_peaks s1 acc) as [t1|] eqn:H1; simpl; [|discriminate].
      destruct (dict_get "dir2" ds) as [s2|]; simpl; [|discriminate].
      destruct (add_peaks s2 t1) as [t2|] eqn:H2; simpl; [|discriminate].
      intros _. apply add_peaks_Ok in H1, H2. now rewrite H1, H2.
    + destruct (dict_get "dir1" ds) as [s1|]; simpl; [|discriminate].
      destruct (add_peaks s1 acc) as [t1|] eqn:H1; simpl; [|discriminate].
      intros _. apply add_peaks_Ok in H1. now rewrite H1.
Qed.

Lemma total_comp_cost_Ok (self : SLF) (df : structured) (t : Q) :
  total_comp_cost self df = Ok t -> aggregable self df = true.
Proof.
  intros H. unfold aggregable. apply forallb_forall. intros [d g] Hd.
  apply forallb_forall. intros [key e] He.
  destruct (for_each_Ok_each _ _ _ _ H d g Hd) as (a1 & a2 & Hg).
  destruct (for_each_Ok_each _ _ _ _ Hg key e He) as (b1 & b2 & Hb).
  eapply add_entry_cost_Ok. exact Hb.
Qed.

(** X5.  The aggregation of lines 97 to 112 raises nothing exactly on the
    tables where every entry has the shape of its class, every directional
    entry has the directions that are read (["dir1"], and ["dir2"] when
    [flag3d] is set), and no loss sequence that is read is empty; it runs
    whether [normalize] is set or not. *)
Theorem aggregation_completes_exactly (self : SLF) (df : structured) :
  (exists t, total_comp_cost self df = Ok t) <-> aggregable self df = true.
Proof.
  split.
  - intros [t Ht]. eapply total_comp_cost_Ok. exact Ht.
  - intros H. exact (table_cost_defined self df 0 H).
Qed.







(** ** Calling the builder again *)

Lemma truncate_negative_idempotent (l : list Q) :
  truncate_negative (truncate_negative l) = truncate_negative l.
Proof.
  induction l as [|v l IH]; simpl; [reflexivity|].
  rewrite IH. f_equal. destruct (Qltb v 0) eqn:E; [reflexivity|now rewrite E].
Qed.

Lemma for_each_map {V A} (h : string -> V -> V)
    (body : string -> V -> A -> result A) (d : dict V) (acc : A) :
  for_each body (map (fun '(k, v) => (k, h k v)) d) acc
  = for_each (fun k v a => body k (h k v) a) d acc.
Proof.
  revert acc. induction d as [|[k v] d IH]; intros acc; simpl.
  - reflexivity.
  - destruct (body k (h k v) acc); simpl; [apply IH|reflexivity].
Qed.

Lemma store_story_truncated factor i lf acc :
  store_story true factor i (truncate_leaf lf) acc = store_story true factor i lf acc.
Proof.
  unfold store_story, story_function, truncate_leaf. simpl.
  now rewrite truncate_negative_idempotent.
Qed.

Lemma entry_functions_truncated factor d e :
  entry_functions factor d (if is_nondirectional d then truncate_entry e else e)
  = entry_functions factor d e.
Proof.
  unfold is_nondirectional. destruct (String.eqb d "Non-directional") eqn:Hd;
    [|reflexivity].
  unfold entry_functions. rewrite Hd. destruct e as [s|ds]; [|reflexivity].
  simpl. rewrite (for_each_map (fun _ lf => truncate_leaf lf)).
  rewrite (for_each_ext _ (store_story true factor))
    by (intros; apply store_story_truncated).
  reflexivity.
Qed.

Lemma class_functions_truncated factor d (g : dict entry) :
  class_functions factor d
    (map (fun '(key, e) =>
            (key, if is_nondirectional d then truncate_entry e else e)) g)
  = class_functions factor d g.
Proof.
  unfold class_functions.
  rewrite (for_each_map
             (fun _ e => if is_nondirectional d then truncate_entry e else e)).
  apply for_each_ext. intros key e a. now rewrite entry_functions_truncated.
Qed.

Lemma build_truncated_fst factor (df : structured) :
  fst (for_items (build_class factor) (truncated_table df) ∅)
  = fst (for_items (build_class factor) df ∅).
Proof.
  rewrite !for_items_fst.
  etransitivity;
    [exact (for_each_map
              (fun d g => map (fun '(key, e) =>
                 (key, if is_nondirectional d then truncate_entry e else e)) g)
              (fun d g a => fst (build_class factor d g a)) df ∅)|].
  apply for_each_ext. intros d g a. cbv beta.
  now rewrite !build_class_fst, class_functions_truncated.
Qed.

Lemma peaks_defined_truncated (s : dict leaf) :
  peaks_defined (map (fun '(i, lf) => (i, truncate_leaf lf)) s) = peaks_defined s.
Proof.
  induction s as [|[i lf] s IH]; simpl; [reflexivity|].
  rewrite IH. now destruct (loss lf).
Qed.

Lemma entry_aggregable_truncated self d e :
  entry_aggregable self d (if is_nondirectional d then truncate_entry e else e)
  = entry_aggregable self d e.
Proof.
  destruct (is_nondirectional d) eqn:Hd; [|reflexivity].
  unfold entry_aggregable. rewrite Hd. destruct e as [s|ds]; [|reflexivity].
  simpl. apply peaks_defined_truncated.
Qed.

Lemma aggregable_truncated self (df : structured) :
  aggregable self (truncated_table df) = aggregable self df.
Proof.
  unfold aggregable, truncated_table.
  induction df as [|[d g] df IH]; simpl; [reflexivity|].
  rewrite IH. f_equal.
  induction g as [|[key e] g IHg]; simpl; [reflexivity|].
  now rewrite IHg, entry_aggregable_truncated.
Qed.

Lemma truncate_entry_idempotent (e : entry) :
  truncate_entry (truncate_entry e) = truncate_entry e.
Proof.
  destruct e as [s|ds]; [|reflexivity]. simpl. f_equal.
  induction s as [|[i lf] s IH]; simpl; [reflexivity|].
  rewrite IH. unfold truncate_leaf. simpl.
  now rewrite truncate_negative_idempotent.
Qed.

Lemma truncated_table_idempotent (df : structured) :
  truncated_table (truncated_table df) = truncated_table df.
Proof.
  unfold truncated_table.
  induction df as [|[d g] df IH]; simpl; [reflexivity|].
  rewrite IH. do 2 f_equal.
  induction g as [|[key e] g IHg]; simpl; [reflexivity|].
  rewrite IHg. do 2 f_equal.
  destruct (is_nondirectional d); [apply truncate_entry_idempotent|reflexivity].
Qed.

Lemma structured_second_call (self : SLF) (df df' : structured) t :
  normalize self = false ->
  structured_functions self df = (Ok t, df') ->
  structured_functions self df' = (Ok t, df').
Proof.
  intros Hn E.
  pose proof (structured_functions_writes _ _ _ _ E) as ->.
  apply structured_functions_factor in E as (total & factor & Ht & Hf & E).
  unfold normalization_factor in Hf. rewrite Hn in Hf. injection Hf as <-.
  apply total_comp_cost_Ok in Ht. rewrite <- aggregable_truncated in Ht.
  destruct (table_cost_defined self _ 0 Ht) as [total' Ht'].
  assert (E2 : structured_functions self (truncated_table df)
               = for_items (build_class 1) (truncated_table df) ∅).
  { unfold structured_functions.
    change (for_each _ (truncated_table df) 0)
      with (total_comp_cost self (truncated_table df)) in Ht'.
    rewrite Ht'. unfold normalization_factor. now rewrite Hn. }
  pose proof (build_truncated_fst 1 df) as Hfst. rewrite E in Hfst. simpl in Hfst.
  destruct (for_items (build_class 1) (truncated_table df) ∅) as [r d''] eqn:E3.
  simpl in Hfst. subst r.
  pose proof (structured_functions_writes self (truncated_table df) t d'') as Hw.
  rewrite E2 in Hw. specialize (Hw eq_refl).
  rewrite truncated_table_idempotent in Hw. subst d''. exact E2.
Qed.

(** X7.  Without [normalize], the builder called again on the raw table as
    its first call has left it returns the same table and changes the raw
    table no further: the truncation of line 132 does not disturb a second
    call. *)
Theorem second_call_returns_same_table (self : SLF) (df df' : raw_table) (t : table) :
  normalize self = false ->
  get_interpolation_functions self df = (Ok t, df') ->
  get_interpolation_functions self df' = (Ok t, df').
Proof.
  intros Hn. unfold get_interpolation_functions.
  destruct (negb (flag self)), df as [l|s]; try discriminate.
  - intros [= H <-]. now rewrite H.
  - destruct (structured_functions self s) as [r s'] eqn:E.
    destruct r as [m|]; simpl; [|discriminate].
    intros [= <- <-]. now rewrite (structured_second_call self s s' m Hn E).
Qed.

Lemma second_call_returns_same_table_witness :
  exists t,
    get_interpolation_functions Scenario.plain_slf
      (StructuredTable (truncated_table Scenario.negative_df))
    = (Ok t, StructuredTable (truncated_table Scenario.negative_df)).
Proof.
  destruct (get_interpolation_functions Scenario.plain_slf
              (StructuredTable Scenario.negative_df)) as [r df'] eqn:E.
  destruct r as [t|ex]; [|vm_compute in E; discriminate].
  assert (Hdf : df' = StructuredTable (truncated_table Scenario.negative_df)).
  { vm_compute in E. injection E as _ <-. reflexivity. }
  subst df'. exists t.
  exact (second_call_returns_same_table Scenario.plain_slf _ _ t eq_refl E).
Defined.

(** * Further properties of the loader of the flat table *)

Lemma dict_get_Raised {V} (k : string) (d : dict V) (ex : exn) :
  dict_get k d = Raised ex -> ex = KeyError.
Proof.
  induction d as [|[k' v] d IH]; simpl.
  - now intros [= <-].
  - destruct (String.eqb k k'); [discriminate|exact IH].
Qed.


Lemma inject_Z_zero (z : Z) : inject_Z z == 0 -> z = 0%Z.
Proof. unfold Qeq. simpl. lia. Qed.

Lemma rescale_Ok (series : list Q) (peak m weight : Q) (c : list Q) :
  rescale series peak m weight = Ok c ->
  ~ m == 0 /\ c = map (fun s => s * peak / m * weight) series.
Proof.
  unfold rescale. destruct (Qeq_bool m 0) eqn:E; [discriminate|].
  intros [= <-]. split; [|reflexivity].
  intros H. apply Qeq_bool_iff in H. congruence.
Qed.


(** What a completed run of the loader has read and written. *)
Lemma provided_slf_legacy_Ok (self : SLF) (df df' : legacy) :
  provided_slf_legacy self df = Ok df' ->
  exists ns_pfa s_idr ns_idr m_pfa m_s m_ns,
    dict_get "E_NS_PFA" df = Ok ns_pfa /\
    dict_get "E_S_IDR" df = Ok s_idr /\
    dict_get "E_NS_IDR" df = Ok ns_idr /\
    py_max ns_pfa = Ok m_pfa /\ py_max s_idr = Ok m_s /\ py_max ns_idr = Ok m_ns /\
    ~ m_pfa == 0 /\ ~ m_s == 0 /\ ~ m_ns == 0 /\
    ~ m_s + m_ns + m_pfa == 0 /\ nstories self <> 0%Z /\
    df' = dict_set "E_S_IDR"
            (map (rescaled_sample m_s (m_s + m_ns + m_pfa)
                    (inject_Z (nstories self))) s_idr)
            (dict_set "E_NS_IDR"
               (map (rescaled_sample m_ns (m_s + m_ns + m_pfa)
                       (inject_Z (nstories self))) ns_idr)
               (dict_set "E_NS_PFA"
                  (map (rescaled_sample m_pfa (m_s + m_ns + m_pfa)
                          (inject_Z (nstories self))) ns_pfa)
                  df)).
Proof.
  unfold provided_slf_legacy.
  destruct (dict_get "E_NS_PFA" df) as [ns_pfa|] eqn:Hpfa; simpl; [|discriminate].
  destruct (dict_get "E_S_IDR" df) as [s_idr|] eqn:Hs; simpl; [|discriminate].
  destruct (dict_get "E_NS_IDR" df) as [ns_idr|] eqn:Hns; simpl; [|discriminate].
  destruct (py_max s_idr) as [m_s|] eqn:Ms; simpl; [|discriminate].
  destruct (py_max ns_idr) as [m_ns|] eqn:Mns; simpl; [|discriminate].
  destruct (py_max ns_pfa) as [m_pfa|] eqn:Mpfa; simpl; [|discriminate].
  destruct (py_div m_s (m_s + m_ns + m_pfa)) as [p_s|] eqn:Ds; simpl;
    [|discriminate].
  apply py_div_Ok in Ds as [Zt ->].
  rewrite !(py_div_nonzero _ _ Zt). simpl.
  destruct (py_div 1 (inject_Z (nstories self))) as [w|] eqn:Dw; simpl;
    [|discriminate].
  apply py_div_Ok in Dw as [Zn ->].
  destruct (rescale ns_pfa _ _ _) as [c1|] eqn:R1; simpl; [|discriminate].
  apply rescale_Ok in R1 as [Zpfa ->].
  rewrite (dict_get_set_ne "E_NS_PFA" "E_NS_IDR") by reflexivity.
  rewrite Hns. simpl.
  destruct (rescale ns_idr _ _ _) as [c2|] eqn:R2; simpl; [|discriminate].
  apply rescale_Ok in R2 as [Zns ->].
  rewrite (dict_get_set_ne "E_NS_IDR" "E_S_IDR") by reflexivity.
  rewrite (dict_get_set_ne "E_NS_PFA" "E_S_IDR") by reflexivity.
  rewrite Hs. simpl.
  destruct (rescale s_idr _ _ _) as [c3|] eqn:R3; simpl; [|discriminate].
  apply rescale_Ok in R3 as [Zs ->].
  intros [= <-].
  exists ns_pfa, s_idr, ns_idr, m_pfa, m_s, m_ns.
  repeat split; try reflexivity; try assumption.
  intros H. apply Zn. now rewrite H.
Qed.

(** X8.  The loader touches the three loss columns only: every other column
    of the table that it returns, the demand columns among them, is the
    column of the spreadsheet. *)
Theorem loader_leaves_other_columns (self : SLF) (df df' : legacy) (k : string) :
  provided_slf_legacy self df = Ok df' ->
  ~ In k loss_columns ->
  dict_get k df' = dict_get k df.
Proof.
  intros H Hk.
  apply provided_slf_legacy_Ok in H
    as (? & ? & ? & ? & ? & ? & _ & _ & _ & _ & _ & _ & _ & _ & _ & _ & _ & ->).
  assert (Hne : forall c, In c loss_columns -> String.eqb k c = false).
  { intros c Hc. apply String.eqb_neq. intros ->. contradiction. }
  rewrite !dict_get_set_ne; [reflexivity| | |]; apply Hne; simpl; auto.
Qed.

Lemma loader_leaves_other_columns_witness :
  exists df',
    provided_slf_legacy Scenario.legacy_slf Scenario.legacy_df = Ok df' /\
    dict_get "PFA" df' = dict_get "PFA" Scenario.legacy_df.
Proof.
  destruct (provided_slf_legacy Scenario.legacy_slf Scenario.legacy_df)
    as [df'|ex] eqn:E; [|vm_compute in E; discriminate].
  exists df'. split; [reflexivity|].
  apply (loader_leaves_other_columns Scenario.legacy_slf Scenario.legacy_df df' "PFA" E).
  intros H. vm_compute in H. repeat destruct H as [H|H]; try discriminate H; exact H.
Defined.



(** ** The peaks of the rewritten columns *)








(** * Further properties of the builder of the flat table *)

Lemma for_each_invariant_in {V A} (P : A -> Prop)
    (body : string -> V -> A -> result A) (d : dict V) (acc a : A) :
  (forall k v acc acc', In (k, v) d -> P acc -> body k v acc = Ok acc' -> P acc') ->
  P acc -> for_each body d acc = Ok a -> P a.
Proof.
  revert acc. induction d as [|[k v] d IH]; intros acc Hbody Hacc; simpl.
  - now intros [= <-].
  - destruct (body k v acc) as [acc'|] eqn:E; simpl; [|discriminate].
    apply IH.
    + intros k0 v0 a0 a0' Hin. apply Hbody. now right.
    + eapply Hbody; [left; reflexivity|exact Hacc|exact E].
Qed.

(** X11.  Every interpolant of the table that the builder returns for a flat
    table comes from a loss column whose name starts with ["E_"]; no other
    column adds one.  It is stored under the last three characters of that
    name followed by the component type; its demand samples are those of the
    column of this very name, or of the column named by the three characters
    alone when there is none; its losses are the samples of the loss column,
    not scaled; both sequences have a zero in front. *)
Theorem flat_table_interpolants_from_loss_columns (df : legacy)
    (m : gmap string interpolant) :
  legacy_functions df = Ok m ->
  forall k f, m !! k = Some f -> legacy_origin df k f.
Proof.
  intros E.
  assert (H : map_Forall (legacy_origin df) m).
  { eapply (for_each_invariant_in (map_Forall (legacy_origin df)));
      [|apply map_Forall_empty|exact E].
    intros key col a a' Hin Ha. unfold legacy_column.
    destruct (startswith key "E_") eqn:Hs; [|now intros [= <-]].
    destruct (re_search_group1 key) as [ct|] eqn:Hct; simpl; [|discriminate].
    destruct (dict_get (last3 key ++ "_" ++ ct)%string df) as [c|ex] eqn:Hc.
    - simpl. destruct (interp1d _ _) as [f|] eqn:Hf; simpl; [|discriminate].
      intros [= <-]. apply map_Forall_insert_2; [|exact Ha].
      unfold interp1d in Hf. destruct (Nat.eqb _ _); [|discriminate].
      injection Hf as <-. exists key, col, ct, c. repeat split; auto.
    - apply dict_get_Raised in Hc as Hex. subst ex.
      destruct (dict_get (last3 key) df) as [c|] eqn:Hc'; simpl; [|discriminate].
      destruct (interp1d _ _) as [f|] eqn:Hf; simpl; [|discriminate].
      intros [= <-]. apply map_Forall_insert_2; [|exact Ha].
      unfold interp1d in Hf. destruct (Nat.eqb _ _); [|discriminate].
      injection Hf as <-. exists key, col, ct, c. repeat split; auto. }
  intros k f Hk. exact (H k f Hk).
Qed.

Lemma flat_table_interpolants_from_loss_columns_witness :
  exists m f,
    legacy_functions Scenario.legacy_df = Ok m /\
    m !! "PFA_NS" = Some f /\
    legacy_origin Scenario.legacy_df "PFA_NS" f.
Proof.
  destruct (legacy_functions Scenario.legacy_df) as [m|ex] eqn:E;
    [|vm_compute in E; discriminate].
  assert (Hf : exists f, m !! "PFA_NS" = Some f).
  { vm_compute in E. injection E as <-. eexists. vm_compute. reflexivity. }
  destruct Hf as [f Hf]. exists m, f. split; [reflexivity|]. split; [exact Hf|].
  exact (flat_table_interpolants_from_loss_columns Scenario.legacy_df m E _ _ Hf).
Defined.

(** ** The names of the loss columns *)

Lemma before_last_underscore_none (s : string) :
  has_char "_" s = false -> before_last_underscore s = None.
Proof.
  induction s as [|c s IH]; simpl; [reflexivity|].
  intros [Hc Hs]%orb_false_iff. now rewrite (IH Hs), Hc.
Qed.

Lemma before_last_underscore_app (a b : string) :
  has_char "_" b = false ->
  before_last_underscore (a ++ String "_" b)%string = Some a.
Proof.
  intros Hb. induction a as [|c a IH]; simpl.
  - now rewrite (before_last_underscore_none b Hb).
  - now rewrite IH.
Qed.

Lemma line_of_no_newline (s : string) :
  has_char newline s = false -> line_of s = s.
Proof.
  induction s as [|c s IH]; simpl; [reflexivity|].
  intros [Hc Hs]%orb_false_iff. now rewrite Hc, (IH Hs).
Qed.

Lemma has_char_app (c : Ascii.ascii) (a b : string) :
  has_char c (a ++ b)%string = has_char c a || has_char c b.
Proof.
  induction a as [|x a IH]; simpl; [reflexivity|].
  now rewrite IH, orb_assoc.
Qed.

Lemma has_char_line_of (s : string) :
  has_char "_" s = false -> has_char "_" (line_of s) = false.
Proof.
  induction s as [|c s IH]; simpl; [reflexivity|].
  intros [Hc Hs]%orb_false_iff.
  destruct (Ascii.eqb c newline); simpl; [reflexivity|].
  now rewrite Hc, (IH Hs).
Qed.

Lemma re_search_no_underscore (s : string) :
  has_char "_" s = false -> re_search_group1 s = Raised AttributeError.
Proof.
  induction s as [|c s IH]; simpl; [reflexivity|].
  intros [Hc Hs]%orb_false_iff. rewrite Hc. now apply IH.
Qed.

Lemma substring_all (s : string) : String.substring 0 (String.length s) s = s.
Proof. induction s as [|c s IH]; simpl; [reflexivity|now rewrite IH]. Qed.

Lemma substring_app_tail (p b : string) :
  String.substring (String.length p) (String.length b) (p ++ b)%string = b.
Proof.
  induction p as [|c p IH]; simpl; [apply substring_all|exact IH].
Qed.

Lemma string_length_app (a b : string) :
  String.length (a ++ b)%string = (String.length a + String.length b)%nat.
Proof. induction a as [|c a IH]; simpl; [reflexivity|now rewrite IH]. Qed.

Lemma string_app_assoc (a b c : string) :
  ((a ++ b) ++ c = a ++ b ++ c)%string.
Proof.
  induction a as [|x a IH]; [reflexivity|].
  change (String x ((a ++ b) ++ c) = String x (a ++ b ++ c))%string.
  now rewrite IH.
Qed.

Lemma last3_app (p b : string) :
  String.length b = 3%nat -> last3 (p ++ b)%string = b.
Proof.
  intros Hb. unfold last3. rewrite string_length_app, Hb.
  replace (String.length p + 3 - 3)%nat with (String.length p) by lia.
  rewrite <- Hb. apply substring_app_tail.
Qed.

Lemma re_search_after_E (r : string) :
  re_search_group1 ("E_" ++ r)%string
  = match before_last_underscore (line_of r) with
    | Some g => Ok g
    | None => re_search_group1 r
    end.
Proof. reflexivity. Qed.

Lemma prefix_empty (s : string) : String.prefix EmptyString s = true.
Proof. destruct s; reflexivity. Qed.

(** X12.  The naming convention of the flat table.  A loss column named
    ["E_"], a component type, an underscore and three characters of demand
    parameter (with no line break, and no underscore among the three) is
    read as that component type and that demand parameter, so that its
    interpolant goes under the demand parameter, an underscore and the
    component type.  A column whose name starts with ["E_"] and has no
    second underscore makes the builder raise AttributeError. *)
Theorem loss_column_name_parsed (ct edp3 : string) :
  (has_char newline ct = false ->
   has_char newline edp3 = false ->
   has_char "_" edp3 = false ->
   String.length edp3 = 3%nat ->
   let key := ("E_" ++ ct ++ "_" ++ edp3)%string in
   startswith key "E_" = true /\
   re_search_group1 key = Ok ct /\
   last3 key = edp3) /\
  (has_char "_" edp3 = false ->
   forall df col acc,
     legacy_column df ("E_" ++ edp3)%string col acc = Raised AttributeError).
Proof.
  split.
  - intros Hn1 Hn2 Hu Hl key.
    split; [unfold key, startswith; simpl; apply prefix_empty|]. split.
    + assert (Hb : before_last_underscore (line_of (ct ++ "_" ++ edp3)%string)
                   = Some ct).
      { rewrite line_of_no_newline.
        - exact (before_last_underscore_app ct edp3 Hu).
        - rewrite has_char_app, Hn1.
          change ("_" ++ edp3)%string with (String "_" edp3).
          cbn [has_char orb]. now rewrite Hn2. }
      unfold key.
      rewrite (re_search_after_E (ct ++ "_" ++ edp3)%string). now rewrite Hb.
    + unfold key.
      replace ("E_" ++ ct ++ "_" ++ edp3)%string
        with (("E_" ++ ct ++ "_") ++ edp3)%string.
      * now apply last3_app.
      * now rewrite !string_app_assoc.
  - intros Hu df col acc. unfold legacy_column.
    replace (startswith ("E_" ++ edp3)%string "E_") with true
      by (unfold startswith; simpl; now rewrite prefix_empty).
    assert (H : re_search_group1 ("E_" ++ edp3)%string = Raised AttributeError).
    { rewrite (re_search_after_E edp3).
      rewrite (before_last_underscore_none _ (has_char_line_of _ Hu)).
      now apply re_search_no_underscore. }
    now rewrite H.
Qed.

Lemma loss_column_name_parsed_witness :
  re_search_group1 "E_NS_PFA" = Ok "NS" /\ last3 "E_NS_PFA" = "PFA" /\
  legacy_column Scenario.legacy_df "E_PFA" [1] ∅ = Raised AttributeError.
Proof.
  destruct (loss_column_name_parsed "NS" "PFA") as [H1 H2].
  destruct (H1 eq_refl eq_refl eq_refl eq_refl) as (_ & Hr & Hl).
  split; [exact Hr|]. split; [exact Hl|].
  exact (H2 eq_refl Scenario.legacy_df [1] ∅).
Defined.

(** * The choice of the layout *)

Lemma substring_split (s : string) (k : nat) :
  (k <= String.length s)%nat ->
  s = (String.substring 0 k s ++ String.substring k (String.length s - k) s)%string.
Proof.
  revert k. induction s as [|c s IH]; intros k Hk; simpl in *.
  - destruct k; reflexivity.
  - destruct k as [|k]; simpl.
    + now rewrite substring_all.
    + change (String c s
              = String c (String.substring 0 k s
                          ++ String.substring k (String.length s - k) s)%string).
      f_equal. apply IH. lia.
Qed.

Lemma endswith_suffix (s suf : string) :
  endswith s suf = true <-> exists p, s = (p ++ suf)%string.
Proof.
  unfold endswith. split.
  - intros [Hl He]%andb_true_iff.
    apply Nat.leb_le in Hl. apply String.eqb_eq in He.
    exists (String.substring 0 (String.length s - String.length suf) s).
    pose proof (substring_split s (String.length s - String.length suf)) as Hsp.
    replace (String.length s - (String.length s - String.length suf))%nat
      with (String.length suf) in Hsp by lia.
    rewrite He in Hsp. apply Hsp. lia.
  - intros [p ->]. rewrite string_length_app. apply andb_true_iff. split.
    + apply Nat.leb_le. lia.
    + replace (String.length p + String.length suf - String.length suf)%nat
        with (String.length p) by lia.
      rewrite substring_app_tail. apply String.eqb_refl.
Qed.

(** X13.  The flat layout is chosen exactly for the file names that end in
    ["xlsx"]; every other name, also one that ends in ["XLSX"] or in
    ["xls"], selects the nested layout. *)
Theorem flat_layout_by_file_name (fileName : string) (nstories : Z) (repl_cost : Q)
    (flag3d normalize : bool) :
  flag (SLF_init fileName nstories repl_cost flag3d normalize) = false
  <-> exists p, fileName = (p ++ "xlsx")%string.
Proof.
  unfold SLF_init. simpl. rewrite <- endswith_suffix.
  destruct (endswith fileName "xlsx"); split; congruence.
Qed.

(** * Instances of the equivalences *)

Lemma aggregation_completes_exactly_witness :
  exists t, total_comp_cost Scenario.planar_slf Scenario.secondary_df = Ok t.
Proof.
  apply (proj2 (aggregation_completes_exactly Scenario.planar_slf
                  Scenario.secondary_df)).
  reflexivity.
Defined.


Lemma flat_layout_by_file_name_witness :
  flag (SLF_init "slf.xlsx" 2 1 true false) = false.
Proof.
  apply (proj2 (flat_layout_by_file_name "slf.xlsx" 2 1 true false)).
  exists "slf.". reflexivity.
Defined.

(** * What the builder raises *)

Lemma for_each_Raised {V A} (body : string -> V -> A -> result A)
    (d : dict V) (acc : A) (ex : exn) :
  for_each body d acc = Raised ex ->
  exists k v a, In (k, v) d /\ body k v a = Raised ex.
Proof.
  revert acc. induction d as [|[k v] d IH]; intros acc; simpl; [discriminate|].
  destruct (body k v acc) as [acc'|ex'] eqn:E; simpl.
  - intros H. destruct (IH _ H) as (k0 & v0 & a0 & Hin & Hb).
    exists k0, v0, a0. auto.
  - intros [= <-]. exists k, v, acc. auto.
Qed.










(** X15.  The builder of the flat table raises an AttributeError (a loss
    column name without a second underscore), a KeyError (no demand column)
    or a ValueError (sequences of different lengths), and nothing else: no
    division is made on this path. *)
Theorem flat_builder_exceptions (df : legacy) (ex : exn) :
  legacy_functions df = Raised ex -> flat_error ex.
Proof.
  intros H. apply for_each_Raised in H as (key & col & a & _ & H).
  unfold legacy_column in H. unfold flat_error.
  destruct (startswith key "E_"); [|discriminate].
  destruct (re_search_group1 key) as [ct|ex'] eqn:Hct; simpl in H.
  - destruct (dict_get (last3 key ++ "_" ++ ct)%string df) as [c|ex1] eqn:Hc.
    + simpl in H. unfold interp1d in H.
      destruct (Nat.eqb _ _); simpl in H; [discriminate|].
      injection H as <-. tauto.
    + destruct (dict_get (last3 key) df) as [c|ex2] eqn:Hc'; simpl in H.
      * unfold interp1d in H.
        destruct (Nat.eqb _ _); simpl in H; [discriminate|].
        injection H as <-. tauto.
      * injection H as <-. apply dict_get_Raised in Hc'. tauto.
  - injection H as <-.
    assert (Hex : forall s e, re_search_group1 s = Raised e -> e = AttributeError).
    { induction s as [|c s IH]; simpl; intros e.
      - now intros [= <-].
      - destruct (Ascii.eqb c "_").
        + destruct (before_last_underscore (line_of s)); [discriminate|apply IH].
        + apply IH. }
    apply Hex in Hct. tauto.
Qed.

Lemma flat_builder_exceptions_witness :
  flat_error AttributeError.
Proof.
  apply (flat_builder_exceptions [("E_PFA", [1])] AttributeError).
  reflexivity.
Defined.
